(** * steam-crypto: a shallow embedding of [src/index.ts]

    The module [SteamCrypto] of the repository is a thin layer over
    [node:crypto].  This development embeds its five static methods
    ([genSessionKey], [encrypt], [decrypt], [crc32], [rsaEncrypt]) and the
    private helper [generateHmacIV], together with the part of the Node
    runtime they call: the 32-bit integer operators of JavaScript, [Buffer]
    and its "hex"/"base64" codecs, the [Cipher]/[Decipher] objects, [Hmac],
    and RSA public-key encryption. *)

From Stdlib Require Import Ascii String Strings.Byte.
From Stdlib Require Import ZArith List Lia Bool.
Import ListNotations.

Local Open Scope Z_scope.

(* ================================================================== *)
(** * Buffers *)
(* ================================================================== *)

(** A Node [Buffer] is a sequence of octets. *)
Definition Buffer : Type := list byte.

Definition byte_to_Z (b : byte) : Z := Z.of_N (Byte.to_N b).

Definition byte_of_Z (z : Z) : byte :=
  match Byte.of_N (Z.to_N (z mod 256)) with
  | Some b => b
  | None => x00
  end.

(** [Buffer.from(s)] / [Buffer.from(s, "ascii")] on a string of 7-bit
    characters. *)
Definition Buffer_from_string (s : string) : Buffer := list_byte_of_string s.

(** [buf.subarray(start, end)] and [buf.subarray(start)] for start <= end. *)
Definition subarray (buf : Buffer) (start stop : nat) : Buffer :=
  firstn (stop - start) (skipn start buf).

Definition subarray_from (buf : Buffer) (start : nat) : Buffer :=
  skipn start buf.

(* ================================================================== *)
(** * JavaScript 32-bit integer operators *)
(* ================================================================== *)

Module JS.

Definition two32 : Z := 4294967296.
Definition two31 : Z := 2147483648.

(** ECMAScript ToInt32 and ToUint32 on an integral number. *)
Definition ToInt32 (z : Z) : Z := (z + two31) mod two32 - two31.
Definition ToUint32 (z : Z) : Z := z mod two32.

(** [undefined] (an out-of-range typed-array read) coerces to 0. *)
Definition ToInt32_opt (o : option Z) : Z :=
  match o with
  | Some z => ToInt32 z
  | None => 0
  end.

(** [a ^ b], [a & b], [~a]: operands through ToInt32, result an int32. *)
Definition xor (a b : Z) : Z := ToInt32 (Z.lxor (ToInt32 a) (ToInt32 b)).
Definition and (a b : Z) : Z := ToInt32 (Z.land (ToInt32 a) (ToInt32 b)).
Definition not (a : Z) : Z := ToInt32 (Z.lnot (ToInt32 a)).

(** [a >>> n]: left operand through ToUint32, count masked to 5 bits. *)
Definition ushr (a n : Z) : Z := Z.shiftr (ToUint32 a) (n mod 32).

(** Indexed read of a [Uint32Array]: [undefined] out of range. *)
Definition typed_get (a : list Z) (i : Z) : option Z :=
  if i <? 0 then None else nth_error a (Z.to_nat i).

(** [a ^ b] where [a] is the result of an indexed read. *)
Definition xor_read (a : option Z) (b : Z) : Z :=
  ToInt32 (Z.lxor (ToInt32_opt a) (ToInt32 b)).

End JS.

(* ================================================================== *)
(** * CRC32 *)
(* ================================================================== *)

(** One turn of the inner loop of the table initialiser:
    [i = i & 1 ? 0xedb88320 ^ (i >>> 1) : i >>> 1]. *)
Definition crc32Table_turn (i : Z) : Z :=
  if JS.and i 1 =? 0 then JS.ushr i 1 else JS.xor 0xedb88320 (JS.ushr i 1).

(** The callback of [new Uint32Array(256).map((_, i) => ...)]: eight turns,
    then [i >>> 0]; the typed array stores it through ToUint32. *)
Definition crc32Table_entry (i : Z) : Z :=
  JS.ToUint32 (JS.ushr (Nat.iter 8 crc32Table_turn i) 0).

Definition crc32Table : list Z :=
  Eval vm_compute in map (fun i => crc32Table_entry (Z.of_nat i)) (seq 0 256).

(** The index read at each iteration, [(crc ^ buffer[i]) & 0xff]. *)
Definition crc32_index (crc : Z) (b : byte) : Z :=
  JS.and (JS.xor crc (byte_to_Z b)) 0xff.

(** The loop body: [crc = crc32Table[(crc ^ buffer[i]) & 0xff] ^ (crc >>> 8)]. *)
Definition crc32_step (crc : Z) (b : byte) : Z :=
  JS.xor_read (JS.typed_get crc32Table (crc32_index crc b)) (JS.ushr crc 8).

(** [SteamCrypto.crc32]. *)
Definition crc32 (buffer : Buffer) : Z :=
  let crc := fold_left crc32_step buffer (JS.not 0) in
  JS.ushr (JS.not crc) 0.

(** ** The reference the checksum is compared with

    Written from the words of the specification: reflected CRC32, polynomial
    [0xEDB88320], seed [0xFFFFFFFF], final complement, on unsigned 32-bit
    values and one bit at a time (no table). *)
Module Reference.

Definition poly : Z := 0xEDB88320.
Definition seed : Z := 0xFFFFFFFF.

Definition shift_bit (c : Z) : Z :=
  if Z.testbit c 0 then Z.lxor (Z.shiftr c 1) poly else Z.shiftr c 1.

Definition feed_byte (c : Z) (b : byte) : Z :=
  Nat.iter 8 shift_bit (Z.lxor c (byte_to_Z b)).

Definition crc32_reflected (buf : Buffer) : Z :=
  Z.lxor (fold_left feed_byte buf seed) 0xFFFFFFFF.

End Reference.

(** Every entry of the table is eight bit-steps of its index, and is
    already an unsigned 32-bit value. *)
Definition table_entry_ok (i : nat) : bool :=
  match nth_error crc32Table i with
  | Some t => (t =? Nat.iter 8 Reference.shift_bit (Z.of_nat i))
              && (0 <=? t) && (t <? JS.two32)
  | None => false
  end.

(* ================================================================== *)
(** * Exceptions and randomness *)
(* ================================================================== *)

(** The exceptions [node:crypto] raises on the paths taken here, named by
    their Node code or their OpenSSL reason. *)
Inductive Error : Type :=
| ERR_CRYPTO_INVALID_IV            (* "Invalid initialization vector" *)
| ERR_CRYPTO_INVALID_KEYLEN        (* "Invalid key length" *)
| ERR_CRYPTO_INVALID_JWK           (* "Invalid JWK data" *)
| ERR_OSSL_WRONG_FINAL_BLOCK_LENGTH
| ERR_OSSL_BAD_DECRYPT
| ERR_OSSL_UNSUPPORTED             (* the key text does not decode *)
| ERR_OSSL_RSA_MODULUS_TOO_LARGE
| ERR_OSSL_RSA_BAD_E_VALUE
| ERR_OSSL_RSA_KEY_SIZE_TOO_SMALL
| ERR_OSSL_RSA_DATA_TOO_LARGE_FOR_KEY_SIZE
| ERR_OSSL_RSA_DATA_TOO_LARGE_FOR_MODULUS
| ERR_OSSL_INVALID_KEY             (* a key without a modulus *)
| ERR_OSSL_BN_NO_INVERSE           (* the modular power on an even modulus *)
| ERR_OSSL_RAND_FAILURE.

(** The kinds of failure the specification tells apart (its section 7):
    an integrity error reports corrupt or tampered data, that is invalid
    block padding or a frame cut short; every other exception is about the
    arguments or the resources of the call.  Written from those words. *)
Definition integrity_error (e : Error) : bool :=
  match e with
  | ERR_OSSL_WRONG_FINAL_BLOCK_LENGTH | ERR_OSSL_BAD_DECRYPT => true
  | _ => false
  end.

(** A call either returns or throws. *)
Inductive result (A : Type) : Type :=
| Ok (a : A)
| Throw (e : Error).
Arguments Ok {A} a.
Arguments Throw {A} e.

Definition result_bind {A B : Type} (r : result A) (k : A -> result B) : result B :=
  match r with
  | Ok a => k a
  | Throw e => Throw e
  end.

Notation "x <~ e ;; k" := (result_bind e (fun x => k))
  (at level 61, e at next level, right associativity).

(** The system generator, as the unbounded sequence of octets it is going
    to deliver; [randomBytes n] takes the next [n]. *)
Definition Rng : Type := nat -> byte.

Definition rng_take (n : nat) (g : Rng) : Buffer := map g (seq 0 n).
Definition rng_drop (n : nat) (g : Rng) : Rng := fun i => g (n + i)%nat.

(** Calls that draw randomness and may throw. *)
Definition M (A : Type) : Type := Rng -> result (A * Rng).

Definition ret {A : Type} (a : A) : M A := fun g => Ok (a, g).

Definition bind {A B : Type} (m : M A) (k : A -> M B) : M B :=
  fun g => match m g with
           | Ok (a, g') => k a g'
           | Throw e => Throw e
           end.

Definition lift {A : Type} (r : result A) : M A :=
  fun g => match r with
           | Ok a => Ok (a, g)
           | Throw e => Throw e
           end.

Notation "x <- e ;; k" := (bind e (fun x => k))
  (at level 61, e at next level, right associativity).

(** [Crypto.randomBytes(n)]. *)
Definition randomBytes (n : nat) : M Buffer :=
  fun g => Ok (rng_take n g, rng_drop n g).

(* ================================================================== *)
(** * Octet strings *)
(* ================================================================== *)

Definition byte_xor (a b : byte) : byte :=
  byte_of_Z (Z.lxor (byte_to_Z a) (byte_to_Z b)).

(** Octet-wise xor of two strings, to the length of the shorter. *)
Fixpoint xor_bytes (a b : Buffer) : Buffer :=
  match a, b with
  | x :: a', y :: b' => byte_xor x y :: xor_bytes a' b'
  | _, _ => []
  end.

(** Big-endian integer of an octet string (OS2IP) and back (I2OSP, to
    exactly [len] octets, keeping the low ones). *)
Definition OS2IP (b : Buffer) : Z :=
  fold_left (fun acc x => acc * 256 + byte_to_Z x) b 0.

Fixpoint I2OSP (x : Z) (len : nat) : Buffer :=
  match len with
  | O => []
  | S len' => I2OSP (x / 256) len' ++ [byte_of_Z x]
  end.

(* ================================================================== *)
(** * SHA-1 and HMAC (FIPS 180-4, RFC 2104) *)
(* ================================================================== *)

Module SHA1.

Definition w32 (z : Z) : Z := z mod 4294967296.
Definition add (a b : Z) : Z := w32 (a + b).
Definition rotl (n x : Z) : Z :=
  w32 (Z.lor (Z.shiftl x n) (Z.shiftr x (32 - n))).
Definition lnot32 (x : Z) : Z := Z.lxor x 0xFFFFFFFF.

(** Message padding: a one bit, zeros, the bit length on 64 bits. *)
Definition pad (m : Buffer) : Buffer :=
  let len := Z.of_nat (length m) in
  m ++ [x80] ++ repeat x00 (Z.to_nat ((55 - len) mod 64)) ++ I2OSP (8 * len) 8.

Fixpoint words (n : nat) (b : Buffer) : list Z :=
  match n with
  | O => []
  | S n' => OS2IP (firstn 4 b) :: words n' (skipn 4 b)
  end.

(** The 80-word schedule, built most recent word first. *)
Fixpoint extend (n : nat) (rev_w : list Z) : list Z :=
  match n with
  | O => rev_w
  | S n' =>
      let w := rotl 1 (Z.lxor (Z.lxor (nth 2 rev_w 0) (nth 7 rev_w 0))
                              (Z.lxor (nth 13 rev_w 0) (nth 15 rev_w 0))) in
      extend n' (w :: rev_w)
  end.

Definition schedule (block : Buffer) : list Z :=
  rev (extend 64 (rev (words 16 block))).

Definition State : Type := (Z * Z * Z * Z * Z)%type.

Definition f (t : nat) (b c d : Z) : Z :=
  if (t <? 20)%nat then Z.lor (Z.land b c) (Z.land (lnot32 b) d)
  else if (t <? 40)%nat then Z.lxor (Z.lxor b c) d
  else if (t <? 60)%nat then
    Z.lor (Z.lor (Z.land b c) (Z.land b d)) (Z.land c d)
  else Z.lxor (Z.lxor b c) d.

Definition K (t : nat) : Z :=
  if (t <? 20)%nat then 0x5A827999
  else if (t <? 40)%nat then 0x6ED9EBA1
  else if (t <? 60)%nat then 0x8F1BBCDC
  else 0xCA62C1D6.

Definition round (s : State * nat) (w : Z) : State * nat :=
  let '((a, b, c, d, e), t) := s in
  let temp := add (add (add (add (rotl 5 a) (f t b c d)) e) (K t)) w in
  ((temp, a, rotl 30 b, c, d), S t).

Definition compress (h : State) (block : Buffer) : State :=
  let '(h0, h1, h2, h3, h4) := h in
  let '((a, b, c, d, e), _) := fold_left round (schedule block) (h, O) in
  (add h0 a, add h1 b, add h2 c, add h3 d, add h4 e).

Fixpoint blocks (n : nat) (h : State) (m : Buffer) : State :=
  match n with
  | O => h
  | S n' => blocks n' (compress h (firstn 64 m)) (skipn 64 m)
  end.

Definition init : State :=
  (0x67452301, 0xEFCDAB89, 0x98BADCFE, 0x10325476, 0xC3D2E1F0).

Definition digest (m : Buffer) : Buffer :=
  let p := pad m in
  let '(h0, h1, h2, h3, h4) := blocks (length p / 64) init p in
  I2OSP h0 4 ++ I2OSP h1 4 ++ I2OSP h2 4 ++ I2OSP h3 4 ++ I2OSP h4 4.

Definition digest_size : nat := 20.
Definition block_size : nat := 64.

End SHA1.

(** [Crypto.createHmac("sha1", key)], [hmac.update(data)], [hmac.digest()]:
    the object accumulates what it is fed. *)
Record Hmac : Type := { hmac_key : Buffer; hmac_fed : Buffer }.

Definition createHmac_sha1 (key : Buffer) : Hmac :=
  {| hmac_key := key; hmac_fed := [] |}.

Definition hmac_update (h : Hmac) (data : Buffer) : Hmac :=
  {| hmac_key := hmac_key h; hmac_fed := hmac_fed h ++ data |}.

Definition HMAC_SHA1 (key msg : Buffer) : Buffer :=
  let k0 := if (SHA1.block_size <? length key)%nat then SHA1.digest key else key in
  let k := k0 ++ repeat x00 (SHA1.block_size - length k0) in
  let ipad := map (fun b => byte_xor b x36) k in
  let opad := map (fun b => byte_xor b x5c) k in
  SHA1.digest (opad ++ SHA1.digest (ipad ++ msg)).

Definition hmac_digest (h : Hmac) : Buffer :=
  HMAC_SHA1 (hmac_key h) (hmac_fed h).

(* ================================================================== *)
(** * Cipher and Decipher objects *)
(* ================================================================== *)

(** The AES-256 block transformation is the one primitive taken as given:
    a keyed map on 16-octet blocks and its inverse map, under a 32-octet
    key.  Everything around it (modes, chaining, buffering, padding) is
    modelled below. *)
Class BlockCipher : Type := {
  aes256_encrypt_block : Buffer -> Buffer -> Buffer;  (* key, block *)
  aes256_decrypt_block : Buffer -> Buffer -> Buffer
}.

(** What a block cipher is: blocks go to blocks, and decryption undoes
    encryption under the same key. *)
Class BlockCipherLaws (C : BlockCipher) : Prop := {
  encrypt_block_length : forall key blk,
    length key = 32%nat -> length blk = 16%nat ->
    length (aes256_encrypt_block key blk) = 16%nat;
  decrypt_block_length : forall key blk,
    length key = 32%nat -> length blk = 16%nat ->
    length (aes256_decrypt_block key blk) = 16%nat;
  decrypt_encrypt_block : forall key blk,
    length key = 32%nat -> length blk = 16%nat ->
    aes256_decrypt_block key (aes256_encrypt_block key blk) = blk
}.

Inductive Algorithm : Type := aes_256_ecb | aes_256_cbc.
Inductive Direction : Type := Encipher | Decipher.

Definition block_size : nat := 16.
Definition key_length : nat := 32.

Definition iv_length (alg : Algorithm) : nat :=
  match alg with
  | aes_256_ecb => 0
  | aes_256_cbc => 16
  end.

(** The state behind a [Cipher] or [Decipher] object. *)
Record CipherCtx : Type := {
  ctx_alg : Algorithm;
  ctx_dir : Direction;
  ctx_key : Buffer;
  ctx_chain : Buffer;      (* CBC: the previous ciphertext block, first the IV *)
  ctx_buf : Buffer;        (* input not yet processed *)
  ctx_pad : bool           (* auto padding, on by default *)
}.

(** A new object: nothing buffered, padding on. *)
Definition fresh (dir : Direction) (alg : Algorithm) (key iv : Buffer) : CipherCtx :=
  {| ctx_alg := alg; ctx_dir := dir; ctx_key := key;
     ctx_chain := iv; ctx_buf := []; ctx_pad := true |}.

(** [createCipheriv] / [createDecipheriv].  A [null] IV is the empty
    buffer.  The IV is checked against the algorithm before the key is. *)
Definition create (dir : Direction) (alg : Algorithm) (key iv : Buffer)
  : result CipherCtx :=
  if negb (length iv =? iv_length alg)%nat then Throw ERR_CRYPTO_INVALID_IV
  else if negb (length key =? key_length)%nat then Throw ERR_CRYPTO_INVALID_KEYLEN
  else Ok (fresh dir alg key iv).

Definition createCipheriv := create Encipher.
Definition createDecipheriv := create Decipher.

Definition setAutoPadding (c : CipherCtx) (p : bool) : CipherCtx :=
  {| ctx_alg := ctx_alg c; ctx_dir := ctx_dir c; ctx_key := ctx_key c;
     ctx_chain := ctx_chain c; ctx_buf := ctx_buf c; ctx_pad := p |}.

Section Modes.
Context {C : BlockCipher}.

(** One block through the mode: the output block and the next chaining
    value. *)
Definition transform (alg : Algorithm) (dir : Direction)
           (key chain blk : Buffer) : Buffer * Buffer :=
  match alg, dir with
  | aes_256_ecb, Encipher => (aes256_encrypt_block key blk, chain)
  | aes_256_ecb, Decipher => (aes256_decrypt_block key blk, chain)
  | aes_256_cbc, Encipher =>
      let c := aes256_encrypt_block key (xor_bytes blk chain) in (c, c)
  | aes_256_cbc, Decipher =>
      (xor_bytes (aes256_decrypt_block key blk) chain, blk)
  end.

(** The first [n] whole blocks of [data]. *)
Fixpoint process (alg : Algorithm) (dir : Direction) (key : Buffer)
         (n : nat) (chain data : Buffer) : Buffer * Buffer :=
  match n with
  | O => ([], chain)
  | S n' =>
      let '(out, chain1) := transform alg dir key chain (firstn block_size data) in
      let '(outs, chain2) := process alg dir key n' chain1 (skipn block_size data) in
      (out ++ outs, chain2)
  end.

(** How many whole blocks an update lets through.  A decipher that
    removes padding keeps the last whole block back when the input ends
    on a block boundary: it may be the padded one. *)
Definition ready_blocks (dir : Direction) (pad : bool) (avail : nat) : nat :=
  match dir, pad with
  | Decipher, true => (avail - 1) / block_size
  | _, _ => avail / block_size
  end.

(** [cipher.update(data)]. *)
Definition update (c : CipherCtx) (data : Buffer) : Buffer * CipherCtx :=
  let avail := ctx_buf c ++ data in
  let n := ready_blocks (ctx_dir c) (ctx_pad c) (length avail) in
  let '(out, chain) := process (ctx_alg c) (ctx_dir c) (ctx_key c) n (ctx_chain c) avail in
  (out, {| ctx_alg := ctx_alg c; ctx_dir := ctx_dir c; ctx_key := ctx_key c;
           ctx_chain := chain; ctx_buf := skipn (n * block_size) avail;
           ctx_pad := ctx_pad c |}).

(** PKCS#7: fill the block with [n] octets of value [n], [1 <= n <= 16]. *)
Definition padblock (buf : Buffer) : Buffer :=
  let n := (block_size - length buf)%nat in
  buf ++ repeat (byte_of_Z (Z.of_nat n)) n.

(** The last octet says how many to drop; each of them must carry the
    same value. *)
Definition unpadblock (buf : Buffer) : result Buffer :=
  let pad := byte_to_Z (last buf x00) in
  if (pad =? 0) || (Z.of_nat block_size <? pad) then Throw ERR_OSSL_BAD_DECRYPT
  else
    let keep := (block_size - Z.to_nat pad)%nat in
    if forallb (fun b => byte_to_Z b =? pad) (skipn keep buf)
    then Ok (firstn keep buf)
    else Throw ERR_OSSL_BAD_DECRYPT.

(** [cipher.final()]. *)
Definition final (c : CipherCtx) : result Buffer :=
  let one blk := fst (transform (ctx_alg c) (ctx_dir c) (ctx_key c) (ctx_chain c) blk) in
  match ctx_dir c with
  | Encipher =>
      if ctx_pad c then Ok (one (padblock (ctx_buf c)))
      else if (length (ctx_buf c) =? 0)%nat then Ok []
      else if negb (length (ctx_buf c) =? block_size)%nat
           then Throw ERR_OSSL_WRONG_FINAL_BLOCK_LENGTH
      else Ok (one (ctx_buf c))
  | Decipher =>
      if negb (length (ctx_buf c) =? block_size)%nat then
        if (length (ctx_buf c) =? 0)%nat && negb (ctx_pad c) then Ok []
        else Throw ERR_OSSL_WRONG_FINAL_BLOCK_LENGTH
      else if ctx_pad c then unpadblock (one (ctx_buf c))
      else Ok (one (ctx_buf c))
  end.

End Modes.

(* ================================================================== *)
(** * SteamCrypto: the payload cipher *)
(* ================================================================== *)

Section PayloadCipher.
Context {C : BlockCipher}.

(** [SteamCrypto.generateHmacIV]. *)
Definition generateHmacIV (data key : Buffer) : M Buffer :=
  let hmacSecret := subarray key 0 16 in
  random <- randomBytes 3 ;;
  let hmac := createHmac_sha1 hmacSecret in
  let hmac := hmac_update hmac random in
  let hmac := hmac_update hmac data in
  ret (subarray (hmac_digest hmac) 0 13 ++ random).

(** [SteamCrypto.encrypt]. *)
Definition encrypt (data key : Buffer) : M Buffer :=
  IV <- generateHmacIV data key ;;
  cipherIV <- lift (createCipheriv aes_256_ecb key []) ;;
  let cipherIV := setAutoPadding cipherIV false in
  let '(encryptedIV, cipherIV) := update cipherIV IV in
  _ <- lift (final cipherIV) ;;
  cipherData <- lift (createCipheriv aes_256_cbc key IV) ;;
  let '(head, cipherData) := update cipherData data in
  tail <- lift (final cipherData) ;;
  let encryptedData := head ++ tail in
  ret (encryptedIV ++ encryptedData).

(** [SteamCrypto.decrypt]. *)
Definition decrypt (data key : Buffer) : result Buffer :=
  decipherIV <~ createDecipheriv aes_256_ecb key [] ;;
  let decipherIV := setAutoPadding decipherIV false in
  let '(IV, decipherIV) := update decipherIV (subarray data 0 16) in
  _ <~ final decipherIV ;;
  decipherData <~ createDecipheriv aes_256_cbc key IV ;;
  let '(head, decipherData) := update decipherData (subarray_from data 16) in
  tail <~ final decipherData ;;
  let decryptedData := head ++ tail in
  Ok decryptedData.

End PayloadCipher.

(* ================================================================== *)
(** * Text codecs of [Buffer] *)
(* ================================================================== *)

(** JavaScript strings are taken as their sequence of UTF-8 octets. *)
Definition utf8 (s : string) : Buffer := list_byte_of_string s.

Module Hex.

Definition unhex (c : byte) : option Z :=
  let z := byte_to_Z c in
  if (48 <=? z) && (z <=? 57) then Some (z - 48)
  else if (97 <=? z) && (z <=? 102) then Some (z - 87)
  else if (65 <=? z) && (z <=? 70) then Some (z - 55)
  else None.

(** [Buffer.from(s, "hex")]: whole pairs of digits are decoded from the
    left; decoding stops, without an exception, at the first pair that is
    not two hex digits, and a trailing single character is dropped. *)
Fixpoint decode (s : list byte) : Buffer :=
  match s with
  | a :: b :: rest =>
      match unhex a, unhex b with
      | Some x, Some y => byte_of_Z (16 * x + y) :: decode rest
      | _, _ => []
      end
  | _ => []
  end.

Definition is_digit (c : byte) : bool :=
  match unhex c with Some _ => true | None => false end.

(** A well-formed hex text: digits only, an even number of them. *)
Definition well_formed (s : list byte) : bool :=
  forallb is_digit s && Nat.even (length s).

End Hex.

Definition Buffer_from_hex (s : string) : Buffer := Hex.decode (utf8 s).

Module Base64.

Definition alphabet : list byte :=
  utf8 "ABCDEFGHIJKLMNOPQRSTUVWXYZabcdefghijklmnopqrstuvwxyz0123456789+/".

Definition char (v : Z) : byte := nth (Z.to_nat (v mod 64)) alphabet x00.

(** [buf.toString("base64")]. *)
Fixpoint encode (b : Buffer) : list byte :=
  match b with
  | [] => []
  | [x] =>
      let x := byte_to_Z x in
      [char (x / 4); char (x mod 4 * 16); x3d; x3d]
  | [x; y] =>
      let x := byte_to_Z x in
      let y := byte_to_Z y in
      [char (x / 4); char (x mod 4 * 16 + y / 16); char (y mod 16 * 4); x3d]
  | x :: y :: z :: rest =>
      let x := byte_to_Z x in
      let y := byte_to_Z y in
      let z := byte_to_Z z in
      char (x / 4) :: char (x mod 4 * 16 + y / 16)
        :: char (y mod 16 * 4 + z / 64) :: char z :: encode rest
  end.

(** The value of a character in either alphabet (standard or URL-safe). *)
Definition value (c : byte) : option Z :=
  let z := byte_to_Z c in
  if (65 <=? z) && (z <=? 90) then Some (z - 65)
  else if (97 <=? z) && (z <=? 122) then Some (z - 71)
  else if (48 <=? z) && (z <=? 57) then Some (z + 4)
  else if (z =? 43) || (z =? 45) then Some 62
  else if (z =? 47) || (z =? 95) then Some 63
  else None.

(** The sextets up to the first ['=']; other characters are skipped. *)
Fixpoint sextets (s : list byte) : list Z :=
  match s with
  | [] => []
  | c :: rest =>
      if byte_to_Z c =? 61 then []
      else match value c with
           | Some v => v :: sextets rest
           | None => sextets rest
           end
  end.

Fixpoint pack (v : list Z) : Buffer :=
  match v with
  | a :: b :: c :: d :: rest =>
      byte_of_Z (a * 4 + b / 16) :: byte_of_Z (b mod 16 * 16 + c / 4)
        :: byte_of_Z (c mod 4 * 64 + d) :: pack rest
  | [a; b; c] => [byte_of_Z (a * 4 + b / 16); byte_of_Z (b mod 16 * 16 + c / 4)]
  | [a; b] => [byte_of_Z (a * 4 + b / 16)]
  | _ => []
  end.

(** Decoding as Node and the key readers do it. *)
Definition decode (s : list byte) : Buffer := pack (sextets s).

End Base64.

Definition toString_base64 (b : Buffer) : string :=
  string_of_list_byte (Base64.encode b).

(* ================================================================== *)
(** * RSA public keys *)
(* ================================================================== *)

Record RsaKey : Type := { rsa_n : Z; rsa_e : Z }.

Definition BN_num_bits (n : Z) : Z := if n <=? 0 then 0 else Z.log2 n + 1.
Definition BN_num_bytes (n : Z) : nat := Z.to_nat ((BN_num_bits n + 7) / 8).
Definition RSA_size (key : RsaKey) : nat := BN_num_bytes (rsa_n key).

Module DER.

(** One element: the tag must be [tag]; the length is short form or long
    form on one or two octets.  Gives the content and what follows. *)
Definition read (tag : byte) (input : Buffer) : option (Buffer * Buffer) :=
  match input with
  | t :: l :: rest =>
      if negb (byte_to_Z t =? byte_to_Z tag) then None
      else
        let l := byte_to_Z l in
        let '(len, body) :=
          if l <? 128 then (Some l, rest)
          else if l =? 129 then
            match rest with
            | a :: r => (Some (byte_to_Z a), r)
            | _ => (None, rest)
            end
          else if l =? 130 then
            match rest with
            | a :: b :: r => (Some (byte_to_Z a * 256 + byte_to_Z b), r)
            | _ => (None, rest)
            end
          else (None, rest) in
        match len with
        | Some n =>
            if (length body <? Z.to_nat n)%nat then None
            else Some (firstn (Z.to_nat n) body, skipn (Z.to_nat n) body)
        | None => None
        end
  | _ => None
  end.

(** AlgorithmIdentifier of rsaEncryption: the OID 1.2.840.113549.1.1.1
    and a NULL parameter. *)
Definition rsaEncryption : Buffer :=
  [x06; x09; x2a; x86; x48; x86; xf7; x0d; x01; x01; x01; x05; x00].

Definition same (a b : Buffer) : bool :=
  (length a =? length b)%nat
  && forallb (fun p => byte_to_Z (fst p) =? byte_to_Z (snd p)) (combine a b).

(** SubjectPublicKeyInfo carrying an RSAPublicKey. *)
Definition subjectPublicKeyInfo (der : Buffer) : option RsaKey :=
  match read x30 der with
  | Some (spki, _) =>
      match read x30 spki with
      | Some (alg, after_alg) =>
          if negb (same alg rsaEncryption) then None
          else
            match read x03 after_alg with
            | Some (_unused :: bits, _) =>
                match read x30 bits with
                | Some (pk, _) =>
                    match read x02 pk with
                    | Some (n, after_n) =>
                        match read x02 after_n with
                        | Some (e, _) =>
                            Some {| rsa_n := OS2IP n; rsa_e := OS2IP e |}
                        | None => None
                        end
                    | None => None
                    end
                | None => None
                end
            | _ => None
            end
      | None => None
      end
  | None => None
  end.

End DER.

Module PEM.

(** The lines of a text, split at line feeds. *)
Fixpoint lines (cur : list byte) (s : list byte) : list (list byte) :=
  match s with
  | [] => [rev cur]
  | c :: rest =>
      if byte_to_Z c =? 10 then rev cur :: lines [] rest
      else lines (c :: cur) rest
  end.

Definition header : list byte := utf8 "-----BEGIN PUBLIC KEY-----".
Definition footer : list byte := utf8 "-----END PUBLIC KEY-----".

(** A public key in PEM armour: the header line, base64 lines, the
    footer line. *)
Definition publicKey (text : list byte) : option RsaKey :=
  match lines [] text with
  | first :: rest =>
      if DER.same first header && DER.same (last rest []) footer
      then DER.subjectPublicKeyInfo (Base64.decode (concat (removelast rest)))
      else None
  | [] => None
  end.

End PEM.

(** [createPublicKey({ key: { kty: "RSA", n, e }, format: "jwk" })]: the
    two members are base64 texts of the big-endian modulus and exponent. *)
Definition createPublicKey_jwk (n e : string) : result RsaKey :=
  Ok {| rsa_n := OS2IP (Base64.decode (utf8 n));
        rsa_e := OS2IP (Base64.decode (utf8 e)) |}.

(* ================================================================== *)
(** * RSA public-key encryption *)
(* ================================================================== *)

Inductive Padding : Type := RSA_NO_PADDING | RSA_PKCS1_PADDING | RSA_PKCS1_OAEP_PADDING.

(** [b ^ e mod n] by squaring. *)
Fixpoint pow_mod_pos (b : Z) (e : positive) (n : Z) : Z :=
  match e with
  | xH => b mod n
  | xO e' => let r := pow_mod_pos b e' n in (r * r) mod n
  | xI e' => let r := pow_mod_pos b e' n in ((r * r) mod n * b) mod n
  end.

Definition BN_mod_exp (b e n : Z) : Z :=
  match e with
  | Zpos p => pow_mod_pos b p n
  | _ => 1 mod n
  end.

Definition is_zero (b : byte) : bool := byte_to_Z b =? 0.

(** The padding routine redraws a zero octet until it is not zero.  The
    loop has no bound in the library; here it stops after [redraw_limit]
    zero draws in a row and reports the generator as failed. *)
Definition redraw_limit : nat := 4096.

Fixpoint redraw (fuel : nat) (g : Rng) : result (byte * Rng) :=
  match fuel with
  | O => Throw ERR_OSSL_RAND_FAILURE
  | S fuel' =>
      if is_zero (g O) then redraw fuel' (rng_drop 1 g)
      else Ok (g O, rng_drop 1 g)
  end.

Fixpoint replace_zeros (ps : Buffer) : M Buffer :=
  match ps with
  | [] => ret []
  | b :: rest =>
      b' <- (if is_zero b then redraw redraw_limit else ret b) ;;
      rest' <- replace_zeros rest ;;
      ret (b' :: rest')
  end.

(** PKCS#1 v1.5, block type 2: [00 02 PS 00 M] with [PS] at least eight
    non-zero random octets. *)
Definition RSA_padding_add_PKCS1_type_2 (tlen : nat) (from : Buffer) : M Buffer :=
  if (tlen <? length from + 11)%nat
  then lift (Throw ERR_OSSL_RSA_DATA_TOO_LARGE_FOR_KEY_SIZE)
  else
    ps <- randomBytes (tlen - 3 - length from) ;;
    ps <- replace_zeros ps ;;
    ret ([x00; x02] ++ ps ++ [x00] ++ from).

Fixpoint MGF1_blocks (seed : Buffer) (counter : Z) (n : nat) : Buffer :=
  match n with
  | O => []
  | S n' => SHA1.digest (seed ++ I2OSP counter 4) ++ MGF1_blocks seed (counter + 1) n'
  end.

Definition MGF1 (seed : Buffer) (len : nat) : Buffer :=
  firstn len (MGF1_blocks seed 0 (len / SHA1.digest_size + 1)).

(** OAEP with SHA-1, MGF1-SHA-1 and the empty label:
    [00 maskedSeed maskedDB], [DB = lHash PS 01 M]. *)
Definition RSA_padding_add_PKCS1_OAEP (tlen : nat) (from : Buffer) : M Buffer :=
  let mdlen := SHA1.digest_size in
  let emlen := (tlen - 1)%nat in
  if (tlen <? length from + 2 * mdlen + 2)%nat
  then lift (Throw ERR_OSSL_RSA_DATA_TOO_LARGE_FOR_KEY_SIZE)
  else if (emlen <? 2 * mdlen + 1)%nat
  then lift (Throw ERR_OSSL_RSA_KEY_SIZE_TOO_SMALL)
  else
    let db := SHA1.digest []
              ++ repeat x00 (emlen - length from - 2 * mdlen - 1)
              ++ [x01] ++ from in
    seed <- randomBytes mdlen ;;
    let maskedDB := xor_bytes db (MGF1 seed (emlen - mdlen)) in
    let maskedSeed := xor_bytes seed (MGF1 maskedDB mdlen) in
    ret ([x00] ++ maskedSeed ++ maskedDB).

Definition RSA_padding_add_none (tlen : nat) (from : Buffer) : M Buffer :=
  if (tlen <? length from)%nat
  then lift (Throw ERR_OSSL_RSA_DATA_TOO_LARGE_FOR_KEY_SIZE)
  else if (length from <? tlen)%nat
  then lift (Throw ERR_OSSL_RSA_KEY_SIZE_TOO_SMALL)
  else ret from.

(** The raw operation: checks on the key (a key without a modulus is no
    key), the padded block as an integer below the modulus, the modular
    power (which an even modulus makes fail), and the result on exactly as
    many octets as the modulus has. *)
Definition RSA_public_encrypt (key : RsaKey) (padding : Padding) (from : Buffer)
  : M Buffer :=
  let n := rsa_n key in
  let e := rsa_e key in
  if n =? 0 then lift (Throw ERR_OSSL_INVALID_KEY)
  else if 16384 <? BN_num_bits n then lift (Throw ERR_OSSL_RSA_MODULUS_TOO_LARGE)
  else if n <=? e then lift (Throw ERR_OSSL_RSA_BAD_E_VALUE)
  else if (3072 <? BN_num_bits n) && (64 <? BN_num_bits e)
  then lift (Throw ERR_OSSL_RSA_BAD_E_VALUE)
  else
    let num := BN_num_bytes n in
    em <- match padding with
          | RSA_PKCS1_PADDING => RSA_padding_add_PKCS1_type_2 num from
          | RSA_PKCS1_OAEP_PADDING => RSA_padding_add_PKCS1_OAEP num from
          | RSA_NO_PADDING => RSA_padding_add_none num from
          end ;;
    let f := OS2IP em in
    if n <=? f then lift (Throw ERR_OSSL_RSA_DATA_TOO_LARGE_FOR_MODULUS)
    else if Z.even n then lift (Throw ERR_OSSL_BN_NO_INVERSE)
    else ret (I2OSP (BN_mod_exp f e n) num).

(** [Crypto.publicEncrypt({ key, padding }, buffer)] on a key object. *)
Definition publicEncrypt_key (key : RsaKey) (padding : Padding) (buffer : Buffer)
  : M Buffer :=
  match padding with
  | RSA_PKCS1_OAEP_PADDING =>
      em <- RSA_padding_add_PKCS1_OAEP (RSA_size key) buffer ;;
      RSA_public_encrypt key RSA_NO_PADDING em
  | _ => RSA_public_encrypt key padding buffer
  end.

(** [Crypto.publicEncrypt(key, buffer)] on a PEM text: no padding is named,
    so Node applies its default, [RSA_PKCS1_OAEP_PADDING]. *)
Definition publicEncrypt_pem (pem : Buffer) (buffer : Buffer) : M Buffer :=
  match PEM.publicKey pem with
  | Some key => publicEncrypt_key key RSA_PKCS1_OAEP_PADDING buffer
  | None => lift (Throw ERR_OSSL_UNSUPPORTED)
  end.

(* ================================================================== *)
(** * SteamCrypto: session key and credential *)
(* ================================================================== *)

Record SessionKey : Type := { plain : Buffer; encrypted : Buffer }.

Definition SteamPublicKey : Buffer := utf8 "-----BEGIN PUBLIC KEY-----
MIGdMA0GCSqGSIb3DQEBAQUAA4GLADCBhwKBgQDf7BrWLBBmLBc1OhSwfFkRf53T
2Ct64+AVzRkeRuh7h3SiGEYxqQMUeYKO6UWiSRKpI2hzic9pobFhRr3Bvr/WARvY
gdTckPv+T1JzZsuVcNfFjrocejN1oWI0Rrtgt4Bo+hOneoo3S57G9F1fOpn5nsQ6
6WOiu4gZKODnFMBCiQIBEQ==
-----END PUBLIC KEY-----".

(** [SteamCrypto.genSessionKey]. *)
Definition genSessionKey (nonce : Buffer) : M SessionKey :=
  sessionKey <- randomBytes 32 ;;
  encryptedSessionKey <- publicEncrypt_pem SteamPublicKey (sessionKey ++ nonce) ;;
  ret {| plain := sessionKey; encrypted := encryptedSessionKey |}.

(** [SteamCrypto.rsaEncrypt]. *)
Definition rsaEncrypt (password publicKeyMod publicKeyExp : string) : M string :=
  publicKey <- lift (createPublicKey_jwk
                       (toString_base64 (Buffer_from_hex publicKeyMod))
                       (toString_base64 (Buffer_from_hex publicKeyExp))) ;;
  ciphertext <- publicEncrypt_key publicKey RSA_PKCS1_PADDING (utf8 password) ;;
  ret (toString_base64 ciphertext).

(* ================================================================== *)
(** * The modes as the specification words them *)
(* ================================================================== *)

(** Written from the specification, to compare the objects above with:
    ECB of one block is the block transformation itself; CBC chains each
    plaintext block with the previous ciphertext block, starting from the
    IV, over the plaintext padded PKCS-style to the next block boundary. *)
Module Standard.
Section Standard.
Context {C : BlockCipher}.

Definition pkcs7_pad (p : Buffer) : Buffer :=
  let n := (16 - length p mod 16)%nat in
  p ++ repeat (byte_of_Z (Z.of_nat n)) n.

Fixpoint chunks (n : nat) (data : Buffer) : list Buffer :=
  match n with
  | O => []
  | S n' => firstn 16 data :: chunks n' (skipn 16 data)
  end.

Fixpoint cbc_chain (key prev : Buffer) (blocks : list Buffer) : Buffer :=
  match blocks with
  | [] => []
  | p :: rest =>
      let c := aes256_encrypt_block key (xor_bytes p prev) in
      c ++ cbc_chain key c rest
  end.

Definition AES_256_ECB_encrypt (key block : Buffer) : Buffer :=
  aes256_encrypt_block key block.

Definition AES_256_CBC_encrypt (key iv plaintext : Buffer) : Buffer :=
  let padded := pkcs7_pad plaintext in
  cbc_chain key iv (chunks (length padded / 16) padded).

(** The "HMAC-IV": thirteen octets of HMAC-SHA1 under the first half of
    the key, over the random octets then the plaintext, followed by the
    random octets. *)
Definition hmac_iv (key random plaintext : Buffer) : Buffer :=
  firstn 13 (HMAC_SHA1 (firstn 16 key) (random ++ plaintext)) ++ random.

End Standard.
End Standard.

(* ================================================================== *)
(** * Fixtures *)
(* ================================================================== *)

(** The fixed server key, read once. *)
Definition SteamPublicKey_rsa : RsaKey :=
  Eval vm_compute in
    match PEM.publicKey SteamPublicKey with
    | Some key => key
    | None => {| rsa_n := 0; rsa_e := 0 |}
    end.

(** The key material of the repository's tests ([tests/index.test.ts],
    [scripts/test-package.ts]): the modulus text has 143 characters. *)
Definition testPublicKeyMod : string :=
  "c1b05c17a86c7c6bb3eb87f0f52e0c3e5cb6607a0c5c4c2e5ef5f44b3f2c8d0e3c"
  ++ "1b2a3c4d5e6f7a8b9c0d1e2f3a4b5c6d7e8f9a0b1c2d3e4f5a6b7c8d9e0f1a2b3c4d5e6f7a8b9".
Definition testPublicKeyExp : string := "010001".

(** A generator state to run examples with: the octets 1, 8, 15, ... *)
Definition sample_rng : Rng := fun i => byte_of_Z (Z.of_nat i * 7 + 1).

(** A well-formed text is all there is to decode; of another one, only
    this prefix is. *)
Fixpoint hex_prefix (s : list byte) : list byte :=
  match s with
  | a :: b :: rest =>
      if Hex.is_digit a && Hex.is_digit b then a :: b :: hex_prefix rest else []
  | _ => []
  end.

(** A key the library works with: odd modulus of at most 16384 bits,
    exponent below it (and short when the modulus is long). *)
Definition sound_key (key : RsaKey) : Prop :=
  BN_num_bits (rsa_n key) <= 16384
  /\ rsa_e key < rsa_n key
  /\ ((3072 <? BN_num_bits (rsa_n key)) && (64 <? BN_num_bits (rsa_e key)) = false)
  /\ Z.even (rsa_n key) = false
  /\ 256 ^ (Z.of_nat (RSA_size key) - 1) <= rsa_n key.

(** What a call gives back, the generator left aside. *)
Definition run {A : Type} (m : M A) (g : Rng) : result A :=
  match m g with
  | Ok (a, _) => Ok a
  | Throw e => Throw e
  end.

(* ================================================================== *)
(** * AES-256 (FIPS 197) *)
(* ================================================================== *)

(** The block transformation OpenSSL supplies for "aes-256-ecb" and
    "aes-256-cbc", as the standard defines it.  The state is the block in
    input order, that is column by column. *)
Module AES.

Definition all_bytes : list byte :=
  map (fun i => byte_of_Z (Z.of_nat i)) (seq 0 256).

(** Multiplication by [x] in GF(2^8) modulo [x^8 + x^4 + x^3 + x + 1]. *)
Definition xtime (b : byte) : byte :=
  let z := byte_to_Z b in
  byte_of_Z (Z.lxor (2 * z) (if z <? 128 then 0 else 0x11b)).

Fixpoint gmul_loop (n : nat) (a : byte) (b : Z) (acc : byte) : byte :=
  match n with
  | O => acc
  | S n' =>
      gmul_loop n' (xtime a) (b / 2) (if Z.odd b then byte_xor acc a else acc)
  end.

Definition gmul (a b : byte) : byte := gmul_loop 8 a (byte_to_Z b) x00.

Fixpoint gpow (n : nat) (a : byte) : byte :=
  match n with
  | O => x01
  | S n' => gmul a (gpow n' a)
  end.

Definition rotl8 (z n : Z) : Z :=
  Z.lor (Z.shiftl z n) (Z.shiftr z (8 - n)) mod 256.

(** The S-box: the multiplicative inverse (0 to 0), then the affine map. *)
Definition sbox_of (b : byte) : byte :=
  let z := byte_to_Z (gpow 254 b) in
  byte_of_Z (Z.lxor (Z.lxor (Z.lxor z (rotl8 z 1)) (Z.lxor (rotl8 z 2) (rotl8 z 3)))
                    (Z.lxor (rotl8 z 4) 0x63)).

Definition sbox_table : list byte := Eval vm_compute in map sbox_of all_bytes.

Definition sbox (b : byte) : byte :=
  nth (Z.to_nat (byte_to_Z b)) sbox_table x00.

Fixpoint index_of (y : byte) (l : list byte) (i : Z) : Z :=
  match l with
  | [] => 0
  | x :: l' => if Byte.eqb x y then i else index_of y l' (i + 1)
  end.

Definition inv_sbox_table : list byte :=
  Eval vm_compute in map (fun y => byte_of_Z (index_of y sbox_table 0)) all_bytes.

Definition inv_sbox (b : byte) : byte :=
  nth (Z.to_nat (byte_to_Z b)) inv_sbox_table x00.

Definition State : Type := Buffer.

Definition SubBytes (s : State) : State := map sbox s.
Definition InvSubBytes (s : State) : State := map inv_sbox s.

Definition permute (p : list nat) (s : State) : State :=
  map (fun i => nth i s x00) p.

(** Row [r] moves left by [r] columns. *)
Definition ShiftRows : State -> State :=
  permute [0; 5; 10; 15; 4; 9; 14; 3; 8; 13; 2; 7; 12; 1; 6; 11]%nat.
Definition InvShiftRows : State -> State :=
  permute [0; 13; 10; 7; 4; 1; 14; 11; 8; 5; 2; 15; 12; 9; 6; 3]%nat.

Definition x4 (p q r s : byte) : byte :=
  byte_xor (byte_xor p q) (byte_xor r s).

Definition mul2 (b : byte) : byte := xtime b.
Definition mul3 (b : byte) : byte := byte_xor (xtime b) b.
Definition mul9 (b : byte) : byte := byte_xor (xtime (xtime (xtime b))) b.
Definition mul11 (b : byte) : byte :=
  byte_xor (byte_xor (xtime (xtime (xtime b))) (xtime b)) b.
Definition mul13 (b : byte) : byte :=
  byte_xor (byte_xor (xtime (xtime (xtime b))) (xtime (xtime b))) b.
Definition mul14 (b : byte) : byte :=
  byte_xor (byte_xor (xtime (xtime (xtime b))) (xtime (xtime b))) (xtime b).

Definition Column : Type := (byte * byte * byte * byte)%type.

Definition mix_column (col : Column) : Column :=
  let '(a, b, c, d) := col in
  (x4 (mul2 a) (mul3 b) c d,
   x4 a (mul2 b) (mul3 c) d,
   x4 a b (mul2 c) (mul3 d),
   x4 (mul3 a) b c (mul2 d)).

Definition inv_mix_column (col : Column) : Column :=
  let '(a, b, c, d) := col in
  (x4 (mul14 a) (mul11 b) (mul13 c) (mul9 d),
   x4 (mul9 a) (mul14 b) (mul11 c) (mul13 d),
   x4 (mul13 a) (mul9 b) (mul14 c) (mul11 d),
   x4 (mul11 a) (mul13 b) (mul9 c) (mul14 d)).

Definition column (s : State) (c : nat) : Column :=
  (nth (4 * c) s x00, nth (4 * c + 1) s x00,
   nth (4 * c + 2) s x00, nth (4 * c + 3) s x00).

Definition column_bytes (col : Column) : Buffer :=
  let '(a, b, c, d) := col in [a; b; c; d].

Definition on_columns (f : Column -> Column) (s : State) : State :=
  flat_map (fun c => column_bytes (f (column s c))) [0; 1; 2; 3]%nat.

Definition MixColumns : State -> State := on_columns mix_column.
Definition InvMixColumns : State -> State := on_columns inv_mix_column.

Definition AddRoundKey (s : State) (rk : Buffer) : State := xor_bytes s rk.

(** ** Key expansion, [Nk = 8], [Nr = 14] *)

Definition word_xor (u v : Column) : Column :=
  let '(a, b, c, d) := u in
  let '(a', b', c', d') := v in
  (byte_xor a a', byte_xor b b', byte_xor c c', byte_xor d d').

Definition SubWord (w : Column) : Column :=
  let '(a, b, c, d) := w in (sbox a, sbox b, sbox c, sbox d).

Definition RotWord (w : Column) : Column :=
  let '(a, b, c, d) := w in (b, c, d, a).

Definition Rcon (i : nat) : Column := (gpow (i - 1) x02, x00, x00, x00).

Definition zero_word : Column := (x00, x00, x00, x00).

(** Words [i], [i+1], ... appended to the schedule, kept most recent
    first. *)
Fixpoint expand (n i : nat) (rev_w : list Column) : list Column :=
  match n with
  | O => rev_w
  | S n' =>
      let temp := nth 0 rev_w zero_word in
      let temp :=
        if (i mod 8 =? 0)%nat
        then word_xor (SubWord (RotWord temp)) (Rcon (i / 8))
        else if (i mod 8 =? 4)%nat then SubWord temp
        else temp in
      expand n' (S i) (word_xor (nth 7 rev_w zero_word) temp :: rev_w)
  end.

Definition KeyExpansion (key : Buffer) : list Column :=
  rev (expand 52 8 (rev (map (column key) (seq 0 8)))).

Definition round_key (w : list Column) (r : nat) : Buffer :=
  flat_map (fun c => column_bytes (nth (4 * r + c) w zero_word)) [0; 1; 2; 3]%nat.

Definition round_keys (key : Buffer) : list Buffer :=
  map (round_key (KeyExpansion key)) (seq 0 15).

(** ** Cipher and inverse cipher *)

Definition round (s : State) (rk : Buffer) : State :=
  AddRoundKey (MixColumns (ShiftRows (SubBytes s))) rk.

Definition final_round (s : State) (rk : Buffer) : State :=
  AddRoundKey (ShiftRows (SubBytes s)) rk.

Definition inv_round (s : State) (rk : Buffer) : State :=
  InvSubBytes (InvShiftRows (InvMixColumns (AddRoundKey s rk))).

Definition inv_final_round (s : State) (rk : Buffer) : State :=
  InvSubBytes (InvShiftRows (AddRoundKey s rk)).

Definition middle (rks : list Buffer) : list Buffer := firstn 13 (skipn 1 rks).

Definition Cipher (key block : Buffer) : Buffer :=
  let rks := round_keys key in
  final_round
    (fold_left round (middle rks) (AddRoundKey block (nth 0 rks [])))
    (nth 14 rks []).

Definition InvCipher (key block : Buffer) : Buffer :=
  let rks := round_keys key in
  AddRoundKey
    (fold_left inv_round (rev (middle rks)) (inv_final_round block (nth 14 rks [])))
    (nth 0 rks []).

End AES.

Definition AES256 : BlockCipher :=
  {| aes256_encrypt_block := AES.Cipher; aes256_decrypt_block := AES.InvCipher |}.

(** Columns with one non-zero octet, and equality of columns, for the
    checks by enumeration. *)
Definition column_eqb (u v : AES.Column) : bool :=
  let '(a, b, c, d) := u in
  let '(a', b', c', d') := v in
  Byte.eqb a a' && Byte.eqb b b' && Byte.eqb c c' && Byte.eqb d d'.

Definition unit_columns (a : byte) : list AES.Column :=
  [(a, x00, x00, x00); (x00, a, x00, x00); (x00, x00, a, x00); (x00, x00, x00, a)].

(** The 256-bit key of the example vectors of FIPS 197, appendix C.3. *)
Definition fips_key : Buffer :=
  Eval vm_compute in
    Buffer_from_hex "000102030405060708090a0b0c0d0e0f101112131415161718191a1b1c1d1e1f".

(** The key the tests' texts decode to. *)
Definition test_key : RsaKey :=
  {| rsa_n := OS2IP (Buffer_from_hex testPublicKeyMod);
     rsa_e := OS2IP (Buffer_from_hex testPublicKeyExp) |}.

Definition long_password : string :=
  "aaaaaaaaaaaaaaaaaaaaaaaaaaaaaaaaaaaaaaaaaaaaaaaaaaaaaaaaaaaaaaaaaaaaaaaa".

(* ================================================================== *)
(** * Properties *)
(* ================================================================== *)

(** ** Bit-level facts about the 32-bit operators *)

Lemma mod_pow2_lxor (n a b : Z) :
  0 <= n -> Z.lxor a b mod 2 ^ n = Z.lxor (a mod 2 ^ n) (b mod 2 ^ n).
Proof.
  intros Hn. rewrite <- !Z.land_ones by exact Hn.
  apply Z.bits_inj'; intros i Hi.
  rewrite Z.lxor_spec, !Z.land_spec, Z.lxor_spec.
  destruct (Z.testbit (Z.ones n) i); rewrite ?andb_false_r, ?andb_true_r; reflexivity.
Qed.

Lemma mod_pow2_lnot (n a : Z) :
  0 <= n -> Z.lnot a mod 2 ^ n = Z.lxor (a mod 2 ^ n) (Z.ones n).
Proof.
  intros Hn. rewrite <- !Z.land_ones by exact Hn.
  apply Z.bits_inj'; intros i Hi.
  rewrite Z.lxor_spec, !Z.land_spec, Z.lnot_spec by exact Hi.
  destruct (Z.testbit (Z.ones n) i), (Z.testbit a i); reflexivity.
Qed.

Lemma ToUint32_ToInt32 (z : Z) : JS.ToUint32 (JS.ToInt32 z) = JS.ToUint32 z.
Proof.
  unfold JS.ToUint32, JS.ToInt32.
  rewrite Zminus_mod_idemp_l. f_equal. lia.
Qed.

Lemma ToUint32_range (z : Z) : 0 <= JS.ToUint32 z < JS.two32.
Proof. unfold JS.ToUint32. apply Z.mod_pos_bound. reflexivity. Qed.

Lemma ToUint32_small (z : Z) : 0 <= z < JS.two32 -> JS.ToUint32 z = z.
Proof. intros H. unfold JS.ToUint32. apply Z.mod_small, H. Qed.

Lemma ToInt32_small (z : Z) : - JS.two31 <= z < JS.two31 -> JS.ToInt32 z = z.
Proof.
  intros H. unfold JS.ToInt32. rewrite Z.mod_small; unfold JS.two31, JS.two32 in *; lia.
Qed.

Lemma ToUint32_lxor (a b : Z) :
  JS.ToUint32 (Z.lxor a b) = Z.lxor (JS.ToUint32 a) (JS.ToUint32 b).
Proof. apply (mod_pow2_lxor 32). lia. Qed.

Lemma ToUint32_xor (a b : Z) :
  JS.ToUint32 (JS.xor a b) = Z.lxor (JS.ToUint32 a) (JS.ToUint32 b).
Proof.
  unfold JS.xor. rewrite ToUint32_ToInt32, ToUint32_lxor, !ToUint32_ToInt32.
  reflexivity.
Qed.

Lemma byte_to_Z_range (b : byte) : 0 <= byte_to_Z b < 256.
Proof.
  unfold byte_to_Z. pose proof (Byte.to_N_bounded b) as H. lia.
Qed.

Lemma low8_mod32 (z : Z) : (z mod JS.two32) mod 256 = z mod 256.
Proof.
  apply Z.mod_mod_divide. exists 16777216. reflexivity.
Qed.

Lemma low8_ToInt32 (z : Z) : JS.ToInt32 z mod 256 = z mod 256.
Proof.
  rewrite <- (low8_mod32 (JS.ToInt32 z)), <- (low8_mod32 z).
  f_equal. apply ToUint32_ToInt32.
Qed.

(** [x & 0xff] keeps the low octet, whatever the sign of [x]. *)
Lemma and_0xff (x : Z) : JS.and x 0xff = x mod 256.
Proof.
  unfold JS.and.
  rewrite (ToInt32_small 255) by (unfold JS.two31; lia).
  change 255 with (Z.ones 8). rewrite Z.land_ones by lia.
  change (2 ^ 8) with 256. rewrite low8_ToInt32.
  apply ToInt32_small.
  pose proof (Z.mod_pos_bound x 256). unfold JS.two31. lia.
Qed.

Lemma crc32_index_spec (crc : Z) (b : byte) :
  crc32_index crc b = Z.lxor (JS.ToUint32 crc) (byte_to_Z b) mod 256.
Proof.
  unfold crc32_index. rewrite and_0xff.
  rewrite <- (low8_mod32 (JS.xor _ _)).
  change (JS.xor crc (byte_to_Z b) mod JS.two32)
    with (JS.ToUint32 (JS.xor crc (byte_to_Z b))).
  rewrite ToUint32_xor.
  rewrite (ToUint32_small (byte_to_Z b)); [reflexivity|].
  pose proof (byte_to_Z_range b). unfold JS.two32. lia.
Qed.

Lemma crc32_index_range (crc : Z) (b : byte) : 0 <= crc32_index crc b < 256.
Proof. rewrite crc32_index_spec. apply Z.mod_pos_bound. lia. Qed.

(** ** The table-driven loop against the bit-serial reference *)

Lemma shift_bit_lxor (a b : Z) :
  Reference.shift_bit (Z.lxor a b)
  = Z.lxor (Reference.shift_bit a) (Reference.shift_bit b).
Proof.
  unfold Reference.shift_bit.
  rewrite Z.lxor_spec, Z.shiftr_lxor.
  destruct (Z.testbit a 0), (Z.testbit b 0); cbn [xorb].
  - rewrite Z.lxor_assoc, (Z.lxor_comm Reference.poly).
    rewrite Z.lxor_assoc, Z.lxor_nilpotent, Z.lxor_0_r. reflexivity.
  - rewrite !Z.lxor_assoc, (Z.lxor_comm Reference.poly). reflexivity.
  - rewrite Z.lxor_assoc. reflexivity.
  - reflexivity.
Qed.

Lemma iter_shift_bit_lxor (k : nat) (a b : Z) :
  Nat.iter k Reference.shift_bit (Z.lxor a b)
  = Z.lxor (Nat.iter k Reference.shift_bit a) (Nat.iter k Reference.shift_bit b).
Proof.
  induction k as [|k IH]; [reflexivity|].
  rewrite !Nat.iter_succ, IH. apply shift_bit_lxor.
Qed.

Lemma shift_bit_shiftl (h : Z) : Reference.shift_bit (Z.shiftl h 1) = h.
Proof.
  unfold Reference.shift_bit.
  rewrite Z.shiftl_spec_low by lia.
  rewrite Z.shiftr_shiftl_l by lia. apply Z.shiftl_0_r.
Qed.

Lemma iter_shift_bit_shiftl (k : nat) (h : Z) :
  Nat.iter k Reference.shift_bit (Z.shiftl h (Z.of_nat k)) = h.
Proof.
  revert h. induction k as [|k IH]; intros h.
  - apply Z.shiftl_0_r.
  - rewrite Nat.iter_succ.
    replace (Z.shiftl h (Z.of_nat (S k))) with (Z.shiftl (Z.shiftl h 1) (Z.of_nat k))
      by (rewrite Z.shiftl_shiftl by lia; f_equal; lia).
    rewrite IH. apply shift_bit_shiftl.
Qed.

Lemma split_low_octet (x : Z) :
  x = Z.lxor (x mod 256) (Z.shiftl (Z.shiftr x 8) 8).
Proof.
  change 256 with (2 ^ 8). rewrite <- Z.land_ones by lia.
  apply Z.bits_inj'; intros i Hi.
  rewrite Z.lxor_spec, Z.land_spec, Z.testbit_ones_nonneg by lia.
  destruct (Z.ltb_spec i 8) as [Hlt|Hge].
  - rewrite Z.shiftl_spec_low by lia.
    rewrite andb_true_r, xorb_false_r. reflexivity.
  - rewrite Z.shiftl_spec, Z.shiftr_spec by lia.
    rewrite andb_false_r, xorb_false_l. f_equal. lia.
Qed.

(** Eight bit-steps of [x] are a table entry xor the upper bits. *)
Lemma eight_turns (x : Z) :
  Nat.iter 8 Reference.shift_bit x
  = Z.lxor (Nat.iter 8 Reference.shift_bit (x mod 256)) (Z.shiftr x 8).
Proof.
  rewrite (split_low_octet x) at 1.
  rewrite iter_shift_bit_lxor. f_equal.
  apply (iter_shift_bit_shiftl 8).
Qed.

Lemma crc32Table_checked : forallb table_entry_ok (seq 0 256) = true.
Proof. vm_compute. reflexivity. Qed.

Lemma crc32Table_length : length crc32Table = 256%nat.
Proof. reflexivity. Qed.

Lemma crc32Table_get (i : Z) :
  0 <= i < 256 ->
  exists t, JS.typed_get crc32Table i = Some t
            /\ t = Nat.iter 8 Reference.shift_bit i
            /\ 0 <= t < JS.two32.
Proof.
  intros Hi.
  pose proof crc32Table_checked as Hall.
  rewrite forallb_forall in Hall.
  specialize (Hall (Z.to_nat i)).
  assert (Hin : In (Z.to_nat i) (seq 0 256)) by (apply in_seq; lia).
  specialize (Hall Hin). unfold table_entry_ok in Hall.
  unfold JS.typed_get.
  destruct (Z.ltb_spec i 0) as [Hneg|_]; [lia|].
  destruct (nth_error crc32Table (Z.to_nat i)) as [t|]; [|discriminate].
  rewrite Z2Nat.id in Hall by lia.
  apply andb_true_iff in Hall as [Hall Hlt].
  apply andb_true_iff in Hall as [Heq Hle].
  exists t. repeat split.
  - apply Z.eqb_eq, Heq.
  - apply Z.leb_le, Hle.
  - apply Z.ltb_lt, Hlt.
Qed.

Lemma ToUint32_ushr8 (crc : Z) :
  JS.ToUint32 (JS.ushr crc 8) = Z.shiftr (JS.ToUint32 crc) 8.
Proof.
  unfold JS.ushr. change (8 mod 32) with 8.
  apply ToUint32_small.
  pose proof (ToUint32_range crc) as H.
  rewrite Z.shiftr_div_pow2 by lia. split.
  - apply Z.div_pos; lia.
  - apply Z.div_lt_upper_bound; unfold JS.two32 in *; lia.
Qed.

(** The loop body, read on unsigned values, is the reference's byte step. *)
Lemma crc32_step_refines (crc : Z) (b : byte) :
  JS.ToUint32 (crc32_step crc b) = Reference.feed_byte (JS.ToUint32 crc) b.
Proof.
  unfold crc32_step, Reference.feed_byte, JS.xor_read.
  destruct (crc32Table_get (crc32_index crc b) (crc32_index_range crc b))
    as (t & Hget & Ht & Hrange).
  rewrite Hget. cbn [JS.ToInt32_opt].
  rewrite ToUint32_ToInt32, ToUint32_lxor, !ToUint32_ToInt32.
  rewrite (ToUint32_small t Hrange), ToUint32_ushr8.
  rewrite Ht, crc32_index_spec.
  rewrite (eight_turns (Z.lxor (JS.ToUint32 crc) (byte_to_Z b))).
  f_equal. rewrite Z.shiftr_lxor.
  replace (Z.shiftr (byte_to_Z b) 8) with 0; [now rewrite Z.lxor_0_r|].
  symmetry. rewrite Z.shiftr_div_pow2 by lia.
  apply Z.div_small. pose proof (byte_to_Z_range b). lia.
Qed.

(** A loop carries a relation between two accumulators that each step
    carries. *)
Lemma fold_left_simulation {A A' B : Type} (f : A -> B -> A) (g : A' -> B -> A')
      (h : A -> A') :
  (forall a b, h (f a b) = g (h a) b) ->
  forall l a, h (fold_left f l a) = fold_left g l (h a).
Proof.
  intros Hstep l. induction l as [|b rest IH]; intros a; cbn [fold_left].
  - reflexivity.
  - rewrite IH, Hstep. reflexivity.
Qed.

Lemma crc32_loop_refines (buffer : Buffer) (crc : Z) :
  JS.ToUint32 (fold_left crc32_step buffer crc)
  = fold_left Reference.feed_byte buffer (JS.ToUint32 crc).
Proof.
  exact (fold_left_simulation crc32_step Reference.feed_byte JS.ToUint32
           crc32_step_refines buffer crc).
Qed.

(** The closing [~crc >>> 0]. *)
Lemma complement_unsigned (crc : Z) :
  JS.ushr (JS.not crc) 0 = Z.lxor (JS.ToUint32 crc) 0xFFFFFFFF.
Proof.
  unfold JS.ushr, JS.not. change (0 mod 32) with 0.
  rewrite Z.shiftr_0_r, ToUint32_ToInt32.
  unfold JS.ToUint32 at 1. change JS.two32 with (2 ^ 32).
  rewrite mod_pow2_lnot by lia.
  change (JS.ToInt32 crc mod 2 ^ 32) with (JS.ToUint32 (JS.ToInt32 crc)).
  rewrite ToUint32_ToInt32. reflexivity.
Qed.

(** C2. [crc32] is the reflected CRC32 of polynomial 0xEDB88320 with seed
    0xFFFFFFFF and a final complement: on every buffer it agrees with the
    bit-serial reference [Reference.crc32_reflected], and it takes the three
    published check values (empty input, "123456789", the pangram). *)
Theorem crc32_is_reflected_crc32 :
  (forall buffer : Buffer, crc32 buffer = Reference.crc32_reflected buffer)
  /\ crc32 [] = 0x00000000
  /\ crc32 (Buffer_from_string "123456789") = 0xCBF43926
  /\ crc32 (Buffer_from_string "The quick brown fox jumps over the lazy dog")
     = 0x414FA339.
Proof.
  split; [|repeat split; vm_compute; reflexivity].
  intros buffer. unfold crc32, Reference.crc32_reflected.
  rewrite complement_unsigned, crc32_loop_refines. reflexivity.
Qed.

(** C9. [crc32] is total and stays in bounds: the table has 256 entries,
    the index [(crc ^ byte) & 0xff] of every read lies in [0, 256) for any
    running value and any octet (so the read never yields [undefined]), and
    the result is an integer in [0, 2^32). *)
Theorem crc32_total_in_bounds :
  length crc32Table = 256%nat
  /\ (forall (crc : Z) (b : byte),
        0 <= crc32_index crc b < 256
        /\ exists t, JS.typed_get crc32Table (crc32_index crc b) = Some t)
  /\ (forall buffer : Buffer, 0 <= crc32 buffer < 2 ^ 32).
Proof.
  split; [reflexivity|]. split.
  - intros crc b. split; [apply crc32_index_range|].
    destruct (crc32Table_get _ (crc32_index_range crc b)) as (t & Hget & _).
    exists t. exact Hget.
  - intros buffer. unfold crc32, JS.ushr.
    change (0 mod 32) with 0. rewrite Z.shiftr_0_r.
    apply ToUint32_range.
Qed.

(** ** Octets *)

Lemma byte_of_to_Z (b : byte) : byte_of_Z (byte_to_Z b) = b.
Proof.
  unfold byte_of_Z. rewrite Z.mod_small by apply byte_to_Z_range.
  unfold byte_to_Z. rewrite N2Z.id, Byte.of_to_N. reflexivity.
Qed.

Lemma byte_to_of_Z (z : Z) : byte_to_Z (byte_of_Z z) = z mod 256.
Proof.
  unfold byte_of_Z, byte_to_Z.
  pose proof (Z.mod_pos_bound z 256 ltac:(lia)) as Hr.
  destruct (Byte.of_N (Z.to_N (z mod 256))) as [b|] eqn:E.
  - apply Byte.to_of_N in E. rewrite E. apply Z2N.id. lia.
  - apply Byte.of_N_None_iff in E. lia.
Qed.

Lemma byte_to_Z_inj (a b : byte) : byte_to_Z a = byte_to_Z b -> a = b.
Proof.
  intros H. rewrite <- (byte_of_to_Z a), <- (byte_of_to_Z b), H. reflexivity.
Qed.

Lemma lxor_octets (a b : Z) :
  0 <= a < 256 -> 0 <= b < 256 -> Z.lxor a b mod 256 = Z.lxor a b.
Proof.
  intros Ha Hb. change 256 with (2 ^ 8).
  rewrite mod_pow2_lxor by lia.
  change (2 ^ 8) with 256. rewrite !Z.mod_small by assumption. reflexivity.
Qed.

Lemma byte_xor_involutive (a b : byte) : byte_xor (byte_xor a b) b = a.
Proof.
  unfold byte_xor. rewrite byte_to_of_Z.
  rewrite lxor_octets by apply byte_to_Z_range.
  rewrite Z.lxor_assoc, Z.lxor_nilpotent, Z.lxor_0_r.
  apply byte_of_to_Z.
Qed.

Lemma xor_bytes_length (a b : Buffer) :
  length (xor_bytes a b) = Nat.min (length a) (length b).
Proof.
  revert b. induction a as [|x a IH]; intros [|y b]; cbn; try reflexivity.
  rewrite IH. reflexivity.
Qed.

Lemma xor_bytes_involutive (a b : Buffer) :
  (length a <= length b)%nat -> xor_bytes (xor_bytes a b) b = a.
Proof.
  revert b. induction a as [|x a IH]; intros [|y b] H; cbn in *; try reflexivity.
  - lia.
  - rewrite byte_xor_involutive, IH by lia. reflexivity.
Qed.

Lemma I2OSP_length (x : Z) (len : nat) : length (I2OSP x len) = len.
Proof.
  revert x. induction len as [|len IH]; intros x; cbn [I2OSP].
  - reflexivity.
  - rewrite length_app, IH. cbn. lia.
Qed.

Lemma SHA1_digest_length (m : Buffer) : length (SHA1.digest m) = 20%nat.
Proof.
  unfold SHA1.digest.
  destruct (SHA1.blocks _ _ _) as [[[[h0 h1] h2] h3] h4].
  rewrite !length_app, !I2OSP_length. reflexivity.
Qed.

Lemma HMAC_SHA1_length (key msg : Buffer) : length (HMAC_SHA1 key msg) = 20%nat.
Proof. unfold HMAC_SHA1. apply SHA1_digest_length. Qed.

Lemma rng_take_length (n : nat) (g : Rng) : length (rng_take n g) = n.
Proof. unfold rng_take. rewrite length_map, length_seq. reflexivity. Qed.

(** ** Lists cut at block boundaries *)

Lemma firstn_add {A : Type} (a b : nat) (l : list A) :
  firstn (a + b) l = firstn a l ++ firstn b (skipn a l).
Proof.
  revert l. induction a as [|a IH]; intros l; cbn.
  - reflexivity.
  - destruct l as [|x l]; cbn.
    + rewrite firstn_nil. reflexivity.
    + rewrite IH. reflexivity.
Qed.

Lemma app_eq_length {A : Type} (a b c d : list A) :
  a ++ b = c ++ d -> length a = length c -> a = c /\ b = d.
Proof.
  revert c. induction a as [|x a IH]; intros [|y c] H Hl; cbn in *; try lia.
  - split; [reflexivity | exact H].
  - injection H as Hxy H. destruct (IH c H ltac:(lia)) as [-> ->].
    subst. split; reflexivity.
Qed.

(** ** The block pipeline *)

Section CipherProperties.
Context {C : BlockCipher} {L : BlockCipherLaws C}.
Variable key : Buffer.
Hypothesis Hkey : length key = 32%nat.

(** CBC encryption yields whole blocks, and CBC decryption of them gives
    the plaintext blocks back. *)
Lemma cbc_process_roundtrip (n : nat) (iv data : Buffer) :
  length iv = 16%nat -> (n * 16 <= length data)%nat ->
  let ct := fst (process aes_256_cbc Encipher key n iv data) in
  let c := snd (process aes_256_cbc Encipher key n iv data) in
  length ct = (n * 16)%nat
  /\ length c = 16%nat
  /\ process aes_256_cbc Decipher key n iv ct = (firstn (n * 16) data, c).
Proof.
  revert iv data. induction n as [|n IH]; intros iv data Hiv Hlen.
  - cbn. auto.
  - cbn [process transform].
    set (blk := firstn block_size data).
    set (c1 := aes256_encrypt_block key (xor_bytes blk iv)).
    assert (Hblk : length blk = 16%nat).
    { unfold blk, block_size. rewrite length_firstn. lia. }
    assert (Hc1 : length c1 = 16%nat).
    { unfold c1. apply encrypt_block_length; [exact Hkey|].
      rewrite xor_bytes_length. lia. }
    specialize (IH c1 (skipn block_size data) Hc1).
    rewrite length_skipn in IH. unfold block_size in IH at 1.
    specialize (IH ltac:(lia)).
    destruct (process aes_256_cbc Encipher key n c1 (skipn block_size data))
      as [outs c2].
    cbn [fst snd] in *. destruct IH as (Hl & Hc & Hdec).
    split; [rewrite length_app; lia|]. split; [exact Hc|].
    assert (Hf : firstn block_size (c1 ++ outs) = c1).
    { unfold block_size.
      rewrite firstn_app, Hc1, Nat.sub_diag, firstn_O, app_nil_r.
      apply firstn_all2. lia. }
    assert (Hs : skipn block_size (c1 ++ outs) = outs).
    { unfold block_size.
      rewrite skipn_app, Hc1, Nat.sub_diag, skipn_O.
      rewrite (skipn_all2 c1) by lia. reflexivity. }
    rewrite !Hf, !Hs, Hdec. unfold c1.
    rewrite decrypt_encrypt_block;
      [|exact Hkey | rewrite xor_bytes_length; lia].
    rewrite xor_bytes_involutive by lia.
    change (S n * 16)%nat with (16 + n * 16)%nat.
    rewrite firstn_add. reflexivity.
Qed.

Lemma cbc_decipher_length (n : nat) (iv ct : Buffer) :
  length iv = 16%nat -> (n * 16 <= length ct)%nat ->
  length (fst (process aes_256_cbc Decipher key n iv ct)) = (n * 16)%nat.
Proof.
  revert iv ct. induction n as [|n IH]; intros iv ct Hiv Hlen.
  - reflexivity.
  - cbn [process transform].
    assert (Hblk : length (firstn block_size ct) = 16%nat).
    { unfold block_size. rewrite length_firstn. lia. }
    specialize (IH (firstn block_size ct) (skipn block_size ct) Hblk).
    rewrite length_skipn in IH. unfold block_size in IH at 1.
    specialize (IH ltac:(lia)).
    destruct (process aes_256_cbc Decipher key n (firstn block_size ct)
                      (skipn block_size ct)) as [outs c2].
    cbn [fst] in *. rewrite length_app, xor_bytes_length, IH.
    rewrite decrypt_block_length by assumption. lia.
Qed.

(** The pipeline computes the chaining of the specification. *)
Lemma process_is_cbc_chain (n : nat) (iv data : Buffer) :
  fst (process aes_256_cbc Encipher key n iv data)
  = Standard.cbc_chain key iv (Standard.chunks n data).
Proof using Type.
  revert iv data. induction n as [|n IH]; intros iv data.
  - reflexivity.
  - cbn [process transform Standard.chunks Standard.cbc_chain].
    rewrite <- IH.
    destruct (process aes_256_cbc Encipher key n _ _). reflexivity.
Qed.

End CipherProperties.

(** ** The cipher objects on the paths of [encrypt] and [decrypt] *)

Section ObjectProperties.
Context {C : BlockCipher} {L : BlockCipherLaws C}.
Variable key : Buffer.
Hypothesis Hkey : length key = 32%nat.

Lemma create_ok (dir : Direction) (alg : Algorithm) (iv : Buffer) :
  length iv = iv_length alg ->
  create dir alg key iv = Ok (fresh dir alg key iv).
Proof.
  intros Hiv. unfold create.
  rewrite Hiv, Hkey, Nat.eqb_refl. reflexivity.
Qed.

Lemma create_bad_iv (dir : Direction) (alg : Algorithm) (iv : Buffer) :
  length iv <> iv_length alg ->
  create dir alg key iv = Throw ERR_CRYPTO_INVALID_IV.
Proof.
  intros Hiv. unfold create.
  apply Nat.eqb_neq in Hiv. rewrite Hiv. reflexivity.
Qed.

(** The ECB object without padding, fed one block: the block goes
    through the block transformation and nothing is left for [final]. *)
Lemma ecb_one_block (dir : Direction) (blk : Buffer) :
  length blk = 16%nat ->
  let c := setAutoPadding (fresh dir aes_256_ecb key []) false in
  fst (update c blk)
  = match dir with
    | Encipher => aes256_encrypt_block key blk
    | Decipher => aes256_decrypt_block key blk
    end
  /\ final (snd (update c blk)) = Ok [].
Proof.
  intros Hblk c. unfold update, c, setAutoPadding, fresh.
  cbn [ctx_alg ctx_dir ctx_key ctx_chain ctx_buf ctx_pad app].
  replace (ready_blocks dir false (length blk)) with 1%nat
    by (rewrite Hblk; destruct dir; reflexivity).
  cbn [process]. unfold block_size.
  rewrite firstn_all2 by lia.
  assert (Hs : skipn (1 * 16) blk = []) by (apply skipn_all2; lia).
  destruct dir; cbn [transform fst snd]; rewrite Hs, app_nil_r;
    (split; [reflexivity|]); unfold final; reflexivity.
Qed.

End ObjectProperties.

(** ** Padding *)

Lemma pad_amount (len : nat) :
  (1 <= 16 - len mod 16 <= 16)%nat
  /\ (len + (16 - len mod 16) = (len / 16 + 1) * 16)%nat.
Proof.
  pose proof (Nat.mod_upper_bound len 16 ltac:(lia)) as Hm.
  pose proof (Nat.div_mod_eq len 16) as Hd.
  lia.
Qed.

Lemma pkcs7_pad_length (p : Buffer) :
  length (Standard.pkcs7_pad p) = ((length p / 16 + 1) * 16)%nat.
Proof.
  unfold Standard.pkcs7_pad. rewrite length_app, repeat_length.
  apply pad_amount.
Qed.

Lemma last_repeat {A : Type} (l : list A) (x d : A) (k : nat) :
  (1 <= k)%nat -> last (l ++ repeat x k) d = x.
Proof.
  intros Hk. destruct k as [|k]; [lia|].
  replace (repeat x (S k)) with (repeat x k ++ [x]).
  - rewrite app_assoc. apply last_last.
  - change [x] with (repeat x 1). rewrite <- repeat_app.
    f_equal. lia.
Qed.

Lemma forallb_repeat {A : Type} (f : A -> bool) (x : A) (k : nat) :
  f x = true -> forallb f (repeat x k) = true.
Proof.
  intros H. induction k as [|k IH]; cbn; [reflexivity|].
  rewrite H, IH. reflexivity.
Qed.

(** Removing the padding that [padblock] or [pkcs7_pad] put. *)
Lemma unpadblock_padded (rest : Buffer) (k : nat) :
  (1 <= k <= 16)%nat -> length rest = (16 - k)%nat ->
  unpadblock (rest ++ repeat (byte_of_Z (Z.of_nat k)) k) = Ok rest.
Proof.
  intros Hk Hrest. unfold unpadblock.
  rewrite last_repeat by lia.
  rewrite byte_to_of_Z, Z.mod_small by lia.
  unfold block_size.
  destruct (Z.eqb_spec (Z.of_nat k) 0) as [H0|_]; [lia|].
  destruct (Z.ltb_spec (Z.of_nat 16) (Z.of_nat k)) as [H1|_]; [lia|].
  cbn [orb]. rewrite Nat2Z.id.
  rewrite skipn_app, firstn_app, Hrest, Nat.sub_diag, skipn_O, firstn_O, app_nil_r.
  rewrite skipn_all2, firstn_all2 by lia. cbn [app].
  rewrite forallb_repeat; [reflexivity|].
  rewrite byte_to_of_Z, Z.mod_small by lia. apply Z.eqb_refl.
Qed.

Section PipelineOnPrefix.
Context {C : BlockCipher}.

(** The first [n] blocks do not depend on what follows them. *)
Lemma process_prefix (alg : Algorithm) (dir : Direction) (key : Buffer)
      (n : nat) (chain d e : Buffer) :
  (n * 16 <= length d)%nat ->
  process alg dir key n chain (d ++ e) = process alg dir key n chain d.
Proof.
  revert chain d. induction n as [|n IH]; intros chain d Hlen.
  - reflexivity.
  - cbn [process]. unfold block_size.
    rewrite firstn_app, skipn_app.
    replace (16 - length d)%nat with 0%nat by lia.
    rewrite firstn_O, skipn_O, app_nil_r.
    destruct (transform alg dir key chain (firstn 16 d)) as [out c1].
    rewrite IH by (rewrite length_skipn; lia). reflexivity.
Qed.

Lemma process_split (alg : Algorithm) (dir : Direction) (k : Buffer) (n m : nat)
      (chain data : Buffer) :
  process alg dir k (n + m) chain data
  = (fst (process alg dir k n chain data)
       ++ fst (process alg dir k m (snd (process alg dir k n chain data))
                       (skipn (n * block_size) data)),
     snd (process alg dir k m (snd (process alg dir k n chain data))
                  (skipn (n * block_size) data))).
Proof.
  revert chain data. induction n as [|n IH]; intros chain data.
  - cbn [Nat.add process fst snd Nat.mul skipn app].
    destruct (process alg dir k m chain data). reflexivity.
  - cbn [Nat.add process].
    destruct (transform alg dir k chain (firstn block_size data)) as [out c1].
    rewrite IH.
    destruct (process alg dir k n c1 (skipn block_size data)) as [outs c2].
    cbn [fst snd].
    replace (skipn (S n * block_size) data)
      with (skipn (n * block_size) (skipn block_size data))
      by (rewrite skipn_skipn; f_equal; unfold block_size; lia).
    rewrite app_assoc. reflexivity.
Qed.

Lemma process_one (alg : Algorithm) (dir : Direction) (key chain blk : Buffer) :
  length blk = 16%nat ->
  fst (process alg dir key 1 chain blk) = fst (transform alg dir key chain blk).
Proof.
  intros Hblk. cbn [process]. unfold block_size.
  rewrite firstn_all2 by lia.
  destruct (transform alg dir key chain blk). cbn [fst].
  apply app_nil_r.
Qed.

End PipelineOnPrefix.

(** ** The CBC objects *)

Section CbcObjects.
Context {C : BlockCipher} {L : BlockCipherLaws C}.
Variable key : Buffer.
Hypothesis Hkey : length key = 32%nat.

(** [update] then [final] of the CBC cipher: the pipeline over the padded
    plaintext, one block more than the plaintext has whole blocks. *)
Lemma cbc_encipher (iv data : Buffer) :
  let c := fresh Encipher aes_256_cbc key iv in
  final (snd (update c data))
  = Ok (fst (transform aes_256_cbc Encipher key
               (snd (process aes_256_cbc Encipher key (length data / 16) iv data))
               (skipn (length data / 16 * 16) (Standard.pkcs7_pad data))))
  /\ fst (update c data)
     = fst (process aes_256_cbc Encipher key (length data / 16) iv data).
Proof.
  intros c. unfold update, c, fresh.
  cbn [ctx_alg ctx_dir ctx_key ctx_chain ctx_buf ctx_pad app ready_blocks].
  unfold block_size.
  destruct (process aes_256_cbc Encipher key (length data / 16) iv data)
    as [out chain] eqn:Eproc.
  cbn [fst snd]. split; [|reflexivity].
  unfold final.
  cbn [ctx_alg ctx_dir ctx_key ctx_chain ctx_buf ctx_pad].
  do 3 f_equal.
  unfold padblock, Standard.pkcs7_pad, block_size.
  pose proof (Nat.div_mod_eq (length data) 16) as Hd.
  pose proof (Nat.mod_upper_bound (length data) 16 ltac:(lia)) as Hm.
  rewrite skipn_app, length_skipn.
  replace (length data / 16 * 16 - length data)%nat with 0%nat by lia.
  rewrite skipn_O.
  replace (length data - length data / 16 * 16)%nat
    with (length data mod 16)%nat by lia.
  reflexivity.
Qed.

(** Together they are the CBC encryption of the specification. *)
Lemma cbc_encipher_standard (iv data : Buffer) (tail : Buffer) :
  final (snd (update (fresh Encipher aes_256_cbc key iv) data)) = Ok tail ->
  fst (update (fresh Encipher aes_256_cbc key iv) data) ++ tail
  = fst (process aes_256_cbc Encipher key (length data / 16 + 1) iv
           (Standard.pkcs7_pad data)).
Proof.
  intros Hfinal.
  destruct (cbc_encipher iv data) as [Hf Hu].
  assert (Htail : tail = fst (transform aes_256_cbc Encipher key
               (snd (process aes_256_cbc Encipher key (length data / 16) iv data))
               (skipn (length data / 16 * 16) (Standard.pkcs7_pad data))))
    by congruence.
  rewrite Hu, Htail, process_split.
  cbn [fst snd].
  pose proof (Nat.div_mod_eq (length data) 16) as Hd.
  assert (Hpre : process aes_256_cbc Encipher key (length data / 16) iv
                   (Standard.pkcs7_pad data)
                 = process aes_256_cbc Encipher key (length data / 16) iv data).
  { unfold Standard.pkcs7_pad. apply process_prefix. lia. }
  rewrite Hpre. f_equal.
  rewrite process_one; [reflexivity|].
  unfold block_size. rewrite length_skipn, pkcs7_pad_length. lia.
Qed.

(** The CBC decipher on a ciphertext of [n + 1] whole blocks: [update]
    lets the first [n] through and [final] unpads the last. *)
Lemma cbc_decipher (iv ct : Buffer) (n : nat) :
  length ct = ((n + 1) * 16)%nat ->
  let c := fresh Decipher aes_256_cbc key iv in
  fst (update c ct) = fst (process aes_256_cbc Decipher key n iv ct)
  /\ final (snd (update c ct))
     = unpadblock
         (fst (process aes_256_cbc Decipher key 1
                 (snd (process aes_256_cbc Decipher key n iv ct))
                 (skipn (n * 16) ct))).
Proof.
  intros Hct c. unfold update, c, fresh.
  cbn [ctx_alg ctx_dir ctx_key ctx_chain ctx_buf ctx_pad app ready_blocks].
  unfold block_size.
  replace ((length ct - 1) / 16)%nat with n.
  2:{ rewrite Hct. apply Nat.div_unique with (r := 15%nat); lia. }
  destruct (process aes_256_cbc Decipher key n iv ct) as [out chain].
  cbn [fst snd]. split; [reflexivity|].
  assert (Hlast : length (skipn (n * 16) ct) = 16%nat)
    by (rewrite length_skipn; lia).
  unfold final.
  cbn [ctx_alg ctx_dir ctx_key ctx_chain ctx_buf ctx_pad].
  rewrite Hlast. unfold block_size. cbn [Nat.eqb negb].
  rewrite process_one by exact Hlast. reflexivity.
Qed.

(** Deciphering what the cipher produced for [data] gives [data]. *)
Lemma cbc_decipher_encipher (iv data : Buffer) :
  length iv = 16%nat ->
  let n := (length data / 16)%nat in
  let ct := fst (process aes_256_cbc Encipher key (n + 1) iv
                   (Standard.pkcs7_pad data)) in
  length ct = ((n + 1) * 16)%nat
  /\ exists tail,
       final (snd (update (fresh Decipher aes_256_cbc key iv) ct)) = Ok tail
       /\ fst (update (fresh Decipher aes_256_cbc key iv) ct) ++ tail = data.
Proof.
  intros Hiv n ct.
  pose proof (pkcs7_pad_length data) as Hpad. fold n in Hpad.
  destruct (cbc_process_roundtrip key Hkey (n + 1) iv (Standard.pkcs7_pad data)
              Hiv ltac:(lia)) as (Hlen & _ & Hdec).
  fold ct in Hlen, Hdec.
  split; [exact Hlen|].
  destruct (cbc_decipher iv ct n Hlen) as [Hu Hf].
  rewrite Hu, Hf.
  rewrite firstn_all2 in Hdec by lia.
  rewrite process_split in Hdec.
  pose proof (f_equal fst Hdec) as Hout. cbn [fst] in Hout. clear Hdec.
  set (head := fst (process aes_256_cbc Decipher key n iv ct)) in *.
  unfold block_size in Hout.
  set (lastb := fst (process aes_256_cbc Decipher key 1 _ _)) in *.
  assert (Hhead : length head = (n * 16)%nat).
  { unfold head. apply cbc_decipher_length; [exact Hkey | exact Hiv | lia]. }
  pose proof (Nat.div_mod_eq (length data) 16) as Hd. fold n in Hd.
  pose proof (Nat.mod_upper_bound (length data) 16 ltac:(lia)) as Hm.
  assert (Hsplit : Standard.pkcs7_pad data
                   = firstn (n * 16) data
                       ++ (skipn (n * 16) data
                             ++ repeat (byte_of_Z (Z.of_nat (16 - length data mod 16)))
                                  (16 - length data mod 16))).
  { unfold Standard.pkcs7_pad. rewrite app_assoc, firstn_skipn. reflexivity. }
  rewrite Hsplit in Hout.
  apply app_eq_length in Hout as [Hh Hl];
    [|rewrite Hhead, length_firstn; lia].
  exists (skipn (n * 16) data). split.
  - rewrite Hl. apply unpadblock_padded; [lia|].
    rewrite length_skipn. lia.
  - rewrite Hh. apply firstn_skipn.
Qed.

End CbcObjects.

(** ** [encrypt] and [decrypt] *)

Section PayloadCipherProperties.
Context {C : BlockCipher} {L : BlockCipherLaws C}.

Lemma generateHmacIV_spec (data key : Buffer) (g : Rng) :
  generateHmacIV data key g
  = Ok (Standard.hmac_iv key (rng_take 3 g) data, rng_drop 3 g).
Proof. reflexivity. Qed.

Lemma hmac_iv_length (key random data : Buffer) :
  length random = 3%nat -> length (Standard.hmac_iv key random data) = 16%nat.
Proof.
  intros Hr. unfold Standard.hmac_iv.
  rewrite length_app, length_firstn, HMAC_SHA1_length, Hr. reflexivity.
Qed.

(** What [encrypt] returns, for any key of 32 octets and any state of the
    generator. *)
Lemma encrypt_spec (data key : Buffer) (g : Rng) :
  length key = 32%nat ->
  let IV := Standard.hmac_iv key (rng_take 3 g) data in
  encrypt data key g
  = Ok (aes256_encrypt_block key IV
          ++ fst (process aes_256_cbc Encipher key (length data / 16 + 1) IV
                    (Standard.pkcs7_pad data)),
        rng_drop 3 g).
Proof.
  intros Hkey IV.
  assert (Hiv : length IV = 16%nat)
    by (apply hmac_iv_length, rng_take_length).
  unfold encrypt, bind at 1. rewrite generateHmacIV_spec. fold IV.
  clearbody IV.
  unfold createCipheriv.
  rewrite (create_ok key Hkey Encipher aes_256_ecb []) by reflexivity.
  unfold bind at 1, lift at 1.
  destruct (ecb_one_block key Hkey Encipher IV Hiv) as [Hu Hf].
  destruct (update (setAutoPadding (fresh Encipher aes_256_ecb key []) false) IV)
    as [encryptedIV cipherIV].
  cbn [fst snd] in Hu, Hf. subst encryptedIV.
  unfold bind at 1, lift at 1. rewrite Hf.
  rewrite (create_ok key Hkey Encipher aes_256_cbc IV) by exact Hiv.
  unfold bind at 1, lift at 1.
  destruct (cbc_encipher key Hkey IV data) as [Hfin _].
  pose proof (cbc_encipher_standard key Hkey IV data) as Hstd.
  destruct (update (fresh Encipher aes_256_cbc key IV) data) as [head cipherData].
  cbn [fst snd] in Hfin, Hstd.
  unfold bind, lift. rewrite Hfin in *.
  unfold ret. rewrite (Hstd _ eq_refl). reflexivity.
Qed.

(** What [decrypt] does on a frame that [encrypt] can have produced. *)
Lemma decrypt_frame (key IV data : Buffer) :
  length key = 32%nat -> length IV = 16%nat ->
  decrypt (aes256_encrypt_block key IV
             ++ fst (process aes_256_cbc Encipher key (length data / 16 + 1) IV
                       (Standard.pkcs7_pad data))) key
  = Ok data.
Proof.
  intros Hkey Hiv.
  set (ct := fst (process _ _ _ _ _ _)).
  assert (He : length (aes256_encrypt_block key IV) = 16%nat)
    by (apply encrypt_block_length; assumption).
  unfold decrypt, createDecipheriv.
  rewrite (create_ok key Hkey Decipher aes_256_ecb []) by reflexivity.
  unfold result_bind at 1.
  assert (Hhead : subarray (aes256_encrypt_block key IV ++ ct) 0 16
                  = aes256_encrypt_block key IV).
  { unfold subarray. cbn [skipn Nat.sub].
    rewrite firstn_app, He, Nat.sub_diag, firstn_O, app_nil_r.
    apply firstn_all2. lia. }
  assert (Htail : subarray_from (aes256_encrypt_block key IV ++ ct) 16 = ct).
  { unfold subarray_from.
    rewrite skipn_app, He, Nat.sub_diag, skipn_O.
    rewrite skipn_all2 by lia. reflexivity. }
  rewrite Hhead, Htail.
  destruct (ecb_one_block key Hkey Decipher (aes256_encrypt_block key IV) He)
    as [Hu Hf].
  destruct (update (setAutoPadding (fresh Decipher aes_256_ecb key []) false)
                   (aes256_encrypt_block key IV)) as [IV' decipherIV].
  cbn [fst snd] in Hu, Hf. subst IV'.
  rewrite decrypt_encrypt_block by assumption.
  rewrite Hf. unfold result_bind at 1.
  rewrite (create_ok key Hkey Decipher aes_256_cbc IV) by exact Hiv.
  unfold result_bind at 1.
  destruct (cbc_decipher_encipher key Hkey IV data Hiv) as (_ & tail & Hfin & Hdata).
  fold ct in Hfin, Hdata.
  destruct (update (fresh Decipher aes_256_cbc key IV) ct) as [head decipherData].
  cbn [fst snd] in Hfin, Hdata.
  rewrite Hfin. unfold result_bind. rewrite Hdata. reflexivity.
Qed.

End PayloadCipherProperties.

(** ** Frames [decrypt] refuses *)

Section Refusals.
Context {C : BlockCipher} {L : BlockCipherLaws C}.
Variable key : Buffer.
Hypothesis Hkey : length key = 32%nat.

(** The ECB decipher without padding, fed less than a block. *)
Lemma ecb_short_block (blk : Buffer) :
  (length blk < 16)%nat ->
  let c := setAutoPadding (fresh Decipher aes_256_ecb key []) false in
  fst (update c blk) = []
  /\ final (snd (update c blk))
     = if (length blk =? 0)%nat then Ok []
       else Throw ERR_OSSL_WRONG_FINAL_BLOCK_LENGTH.
Proof.
  intros Hblk c. unfold update, c, setAutoPadding, fresh.
  cbn [ctx_alg ctx_dir ctx_key ctx_chain ctx_buf ctx_pad app ready_blocks].
  unfold block_size. rewrite Nat.div_small by exact Hblk.
  cbn [process fst snd Nat.mul skipn]. split; [reflexivity|].
  unfold final.
  cbn [ctx_alg ctx_dir ctx_key ctx_chain ctx_buf ctx_pad].
  unfold block_size.
  destruct (Nat.eqb_spec (length blk) 16) as [H16|_]; [lia|].
  cbn [negb andb]. rewrite andb_true_r. reflexivity.
Qed.

(** The CBC decipher, fed nothing or something that does not end on a
    block boundary, has no whole block left to unpad. *)
Lemma cbc_decipher_ragged (iv data : Buffer) :
  length data = 0%nat \/ (length data mod 16 <> 0)%nat ->
  final (snd (update (fresh Decipher aes_256_cbc key iv) data))
  = Throw ERR_OSSL_WRONG_FINAL_BLOCK_LENGTH.
Proof.
  intros Hdata. unfold update, fresh.
  cbn [ctx_alg ctx_dir ctx_key ctx_chain ctx_buf ctx_pad app ready_blocks].
  unfold block_size.
  destruct (process aes_256_cbc Decipher key ((length data - 1) / 16) iv data)
    as [out chain].
  cbn [snd]. unfold final.
  cbn [ctx_alg ctx_dir ctx_key ctx_chain ctx_buf ctx_pad].
  unfold block_size.
  assert (Hbuf : (length (skipn ((length data - 1) / 16 * 16) data) < 16)%nat).
  { rewrite length_skipn.
    pose proof (Nat.div_mod_eq (length data - 1) 16) as Hd.
    pose proof (Nat.mod_upper_bound (length data - 1) 16 ltac:(lia)) as Hm.
    destruct Hdata as [H0|Hr]; [lia|].
    assert (Hq : ((length data - 1) mod 16 <> 15)%nat).
    { intros H15. apply Hr.
      replace (length data) with (16 * ((length data - 1) / 16 + 1))%nat by lia.
      rewrite Nat.mul_comm. apply Nat.Div0.mod_mul. }
    lia. }
  destruct (Nat.eqb_spec (length (skipn ((length data - 1) / 16 * 16) data)) 16)
    as [H16|_]; [lia|].
  cbn [negb]. rewrite andb_false_r. reflexivity.
Qed.

Lemma decrypt_empty : decrypt [] key = Throw ERR_CRYPTO_INVALID_IV.
Proof.
  unfold decrypt, createDecipheriv.
  rewrite (create_ok key Hkey Decipher aes_256_ecb []) by reflexivity.
  unfold result_bind at 1.
  destruct (ecb_short_block [] ltac:(cbn; lia)) as [Hu Hf].
  change (subarray [] 0 16) with (@nil byte).
  destruct (update (setAutoPadding (fresh Decipher aes_256_ecb key []) false) [])
    as [IV decipherIV].
  cbn [fst snd] in Hu, Hf. subst IV. rewrite Hf.
  unfold result_bind at 1.
  rewrite create_bad_iv by (cbn; lia). reflexivity.
Qed.

Lemma decrypt_short (frame : Buffer) :
  (0 < length frame < 16)%nat ->
  decrypt frame key = Throw ERR_OSSL_WRONG_FINAL_BLOCK_LENGTH.
Proof.
  intros Hlen. unfold decrypt, createDecipheriv.
  rewrite (create_ok key Hkey Decipher aes_256_ecb []) by reflexivity.
  unfold result_bind at 1.
  assert (Hsub : subarray frame 0 16 = frame).
  { unfold subarray. cbn [skipn Nat.sub]. apply firstn_all2. lia. }
  rewrite Hsub.
  destruct (ecb_short_block frame ltac:(lia)) as [Hu Hf].
  destruct (update (setAutoPadding (fresh Decipher aes_256_ecb key []) false) frame)
    as [IV decipherIV].
  cbn [fst snd] in Hu, Hf. rewrite Hf.
  destruct (Nat.eqb_spec (length frame) 0) as [H0|_]; [lia|].
  reflexivity.
Qed.

Lemma decrypt_ragged (frame : Buffer) :
  (16 <= length frame)%nat ->
  length frame = 16%nat \/ ((length frame - 16) mod 16 <> 0)%nat ->
  decrypt frame key = Throw ERR_OSSL_WRONG_FINAL_BLOCK_LENGTH.
Proof.
  intros Hlen Hrag. unfold decrypt, createDecipheriv.
  rewrite (create_ok key Hkey Decipher aes_256_ecb []) by reflexivity.
  unfold result_bind at 1.
  assert (Hsub : length (subarray frame 0 16) = 16%nat).
  { unfold subarray. cbn [skipn Nat.sub]. rewrite length_firstn. lia. }
  destruct (ecb_one_block key Hkey Decipher _ Hsub) as [Hu Hf].
  destruct (update (setAutoPadding (fresh Decipher aes_256_ecb key []) false)
                   (subarray frame 0 16)) as [IV decipherIV].
  cbn [fst snd] in Hu, Hf. rewrite Hf. unfold result_bind at 1.
  assert (Hiv : length IV = 16%nat).
  { rewrite Hu. apply decrypt_block_length; assumption. }
  rewrite (create_ok key Hkey Decipher aes_256_cbc IV) by exact Hiv.
  unfold result_bind at 1.
  assert (Hrest : length (subarray_from frame 16) = 0%nat
                  \/ (length (subarray_from frame 16) mod 16 <> 0)%nat).
  { unfold subarray_from. rewrite length_skipn.
    destruct Hrag as [H16|Hr]; [left; lia | right; exact Hr]. }
  pose proof (cbc_decipher_ragged IV _ Hrest) as Hfin.
  destruct (update (fresh Decipher aes_256_cbc key IV) (subarray_from frame 16))
    as [head decipherData].
  cbn [snd] in Hfin. rewrite Hfin. reflexivity.
Qed.

End Refusals.

(** ** The claims about the payload cipher *)

(** C1. Round trip: for every plaintext [p] (of any length, zero and ten
    thousand included), every key [k] of 32 octets and every state [g] of
    the random generator (so every value of the three octets drawn),
    [encrypt p k] returns a frame and [decrypt] of that frame under [k]
    returns exactly [p]. *)
Theorem decrypt_encrypt_roundtrip {C : BlockCipher} (L : BlockCipherLaws C)
        (p k : Buffer) (g : Rng) :
  length k = 32%nat ->
  exists frame g',
    encrypt p k g = Ok (frame, g') /\ decrypt frame k = Ok p.
Proof.
  intros Hk. eexists. eexists. split.
  - apply encrypt_spec. exact Hk.
  - apply decrypt_frame; [exact Hk |].
    apply hmac_iv_length, rng_take_length.
Qed.

(** C3. Wire format: for every plaintext [p] and key [k] of 32 octets the
    output of [encrypt] is the encrypted IV, exactly 16 octets, followed by
    the AES-CBC ciphertext, whose length is [N * 16] with [N >= 1] and is
    the length of [p] rounded up to the next 16-octet boundary: the least
    multiple of 16 above [length p]. *)
Theorem encrypt_frame_layout {C : BlockCipher} (L : BlockCipherLaws C)
        (p k : Buffer) (g : Rng) :
  length k = 32%nat ->
  exists encryptedIV ciphertext g' N,
    encrypt p k g = Ok (encryptedIV ++ ciphertext, g')
    /\ length encryptedIV = 16%nat
    /\ ciphertext
       = Standard.AES_256_CBC_encrypt k (Standard.hmac_iv k (rng_take 3 g) p) p
    /\ length ciphertext = (N * 16)%nat
    /\ (1 <= N)%nat
    /\ N = (length p / 16 + 1)%nat
    /\ (length p < N * 16 <= length p + 16)%nat.
Proof.
  intros Hk.
  set (IV := Standard.hmac_iv k (rng_take 3 g) p).
  assert (Hiv : length IV = 16%nat) by (apply hmac_iv_length, rng_take_length).
  exists (aes256_encrypt_block k IV).
  exists (fst (process aes_256_cbc Encipher k (length p / 16 + 1) IV
                 (Standard.pkcs7_pad p))).
  exists (rng_drop 3 g), (length p / 16 + 1)%nat.
  pose proof (pkcs7_pad_length p) as Hpad.
  destruct (cbc_process_roundtrip k Hk (length p / 16 + 1) IV (Standard.pkcs7_pad p)
              Hiv ltac:(lia)) as (Hlen & _ & _).
  pose proof (Nat.div_mod_eq (length p) 16) as Hd.
  pose proof (Nat.mod_upper_bound (length p) 16 ltac:(lia)) as Hm.
  repeat split.
  - apply encrypt_spec. exact Hk.
  - apply encrypt_block_length; assumption.
  - unfold Standard.AES_256_CBC_encrypt.
    rewrite Hpad, Nat.div_mul by lia. apply process_is_cbc_chain.
  - exact Hlen.
  - lia.
  - lia.
  - lia.
Qed.

(** C4. For every plaintext [p], key [k] of 32 octets and random value [r]
    of three octets drawn during the call, the IV that [encrypt] uses is
    the first 13 octets of HMAC-SHA1 keyed with [k[0:16]] over [r || p],
    followed by [r]; the first 16 octets of the output are the AES-256-ECB
    encryption of that IV under the whole key, without padding; the rest is
    the AES-256-CBC encryption of [p] under [k] with the derived IV itself,
    not the encrypted one. *)
Theorem encrypt_hmac_iv_ecb_cbc {C : BlockCipher} (L : BlockCipherLaws C)
        (p k r : Buffer) (g : Rng) :
  length k = 32%nat ->
  rng_take 3 g = r ->
  let IV := firstn 13 (HMAC_SHA1 (firstn 16 k) (r ++ p)) ++ r in
  length r = 3%nat
  /\ generateHmacIV p k g = Ok (IV, rng_drop 3 g)
  /\ exists out,
       encrypt p k g = Ok (out, rng_drop 3 g)
       /\ firstn 16 out = Standard.AES_256_ECB_encrypt k IV
       /\ skipn 16 out = Standard.AES_256_CBC_encrypt k IV p.
Proof.
  intros Hk Hr IV.
  assert (Hlen : length r = 3%nat) by (rewrite <- Hr; apply rng_take_length).
  assert (HIV : IV = Standard.hmac_iv k (rng_take 3 g) p)
    by (rewrite Hr; reflexivity).
  assert (Hiv : length IV = 16%nat)
    by (rewrite HIV; apply hmac_iv_length, rng_take_length).
  split; [exact Hlen|]. split.
  - rewrite generateHmacIV_spec, <- HIV. reflexivity.
  - eexists. split.
    + rewrite (encrypt_spec p k g Hk), <- HIV. reflexivity.
    + assert (He : length (aes256_encrypt_block k IV) = 16%nat)
        by (apply encrypt_block_length; assumption).
      rewrite firstn_app, skipn_app, He, Nat.sub_diag, firstn_O, skipn_O, app_nil_r.
      rewrite firstn_all2, skipn_all2 by lia. cbn [app].
      split; [reflexivity|].
      unfold Standard.AES_256_CBC_encrypt.
      rewrite pkcs7_pad_length, Nat.div_mul by lia.
      apply process_is_cbc_chain.
Qed.

(** C6, as the code has it.  For every key of 32 octets, [decrypt] of a
    frame shorter than 16 octets, or of a frame whose part after offset 16
    has a length that is not a multiple of 16, does not return: it throws.
    A frame that is not empty meets the cipher's wrong-final-block-length
    error, an integrity error; the empty frame meets the
    invalid-initialization-vector error, which is about the arguments: no
    IV is there to create the CBC decipher with. *)
Theorem decrypt_rejects_bad_framing {C : BlockCipher} (L : BlockCipherLaws C)
        (frame k : Buffer) :
  length k = 32%nat ->
  (length frame < 16)%nat \/ ((length frame - 16) mod 16 <> 0)%nat ->
  (forall out, decrypt frame k <> Ok out)
  /\ decrypt frame k
     = Throw (if (length frame =? 0)%nat then ERR_CRYPTO_INVALID_IV
              else ERR_OSSL_WRONG_FINAL_BLOCK_LENGTH)
  /\ (frame <> [] ->
      exists e, decrypt frame k = Throw e /\ integrity_error e = true).
Proof.
  intros Hk Hbad.
  assert (Hthrow : decrypt frame k
     = Throw (if (length frame =? 0)%nat then ERR_CRYPTO_INVALID_IV
              else ERR_OSSL_WRONG_FINAL_BLOCK_LENGTH)).
  { destruct (Nat.eqb_spec (length frame) 0) as [H0|Hn0].
    - apply length_zero_iff_nil in H0. subst frame.
      apply decrypt_empty. exact Hk.
    - destruct (Nat.lt_ge_cases (length frame) 16) as [Hlt|Hge].
      + apply decrypt_short; [exact Hk | lia].
      + apply decrypt_ragged; [exact Hk | exact Hge |].
        destruct Hbad as [Hlt|Hr]; [lia | right; exact Hr]. }
  split; [|split; [exact Hthrow|]].
  - intros out Hout. rewrite Hthrow in Hout. discriminate.
  - intros Hne. exists ERR_OSSL_WRONG_FINAL_BLOCK_LENGTH.
    split; [|reflexivity]. rewrite Hthrow.
    destruct frame as [|b frame]; [contradiction Hne; reflexivity | reflexivity].
Qed.

(** C10. For every key of 32 octets, [decrypt] of a frame of exactly 16
    octets (an encrypted IV and an empty ciphertext) throws: the CBC
    decipher removes padding and has no block to remove it from.  It does
    not return the empty buffer, nor anything else. *)
Theorem decrypt_rejects_bare_iv {C : BlockCipher} (L : BlockCipherLaws C)
        (frame k : Buffer) :
  length k = 32%nat ->
  length frame = 16%nat ->
  decrypt frame k = Throw ERR_OSSL_WRONG_FINAL_BLOCK_LENGTH
  /\ decrypt frame k <> Ok []
  /\ forall out, decrypt frame k <> Ok out.
Proof.
  intros Hk Hlen.
  assert (Hthrow : decrypt frame k = Throw ERR_OSSL_WRONG_FINAL_BLOCK_LENGTH).
  { apply decrypt_ragged; [exact Hk | lia | left; exact Hlen]. }
  rewrite Hthrow. repeat split; intros; discriminate.
Qed.

(** ** Calls that draw and throw *)

Lemma bind_ok {A B : Type} (m : M A) (k : A -> M B) (g g' : Rng) (a : A) :
  m g = Ok (a, g') -> bind m k g = k a g'.
Proof. intros H. unfold bind. rewrite H. reflexivity. Qed.

Lemma bind_throw {A B : Type} (m : M A) (k : A -> M B) (g : Rng) (e : Error) :
  m g = Throw e -> bind m k g = Throw e.
Proof. intros H. unfold bind. rewrite H. reflexivity. Qed.

(** ** Octet strings as integers *)

Lemma OS2IP_snoc (b : Buffer) (x : byte) :
  OS2IP (b ++ [x]) = OS2IP b * 256 + byte_to_Z x.
Proof. unfold OS2IP. rewrite fold_left_app. reflexivity. Qed.

Lemma OS2IP_bound (b : Buffer) : 0 <= OS2IP b < 256 ^ Z.of_nat (length b).
Proof.
  induction b as [|x b IH] using rev_ind.
  - cbn. lia.
  - rewrite OS2IP_snoc, length_app, Nat2Z.inj_add.
    cbn [length]. rewrite Z.pow_add_r by lia.
    pose proof (byte_to_Z_range x). change (256 ^ Z.of_nat 1) with 256. nia.
Qed.

Lemma OS2IP_leading_zero (b : Buffer) : OS2IP (x00 :: b) = OS2IP b.
Proof. reflexivity. Qed.

(** ** The mask generator and OAEP *)

Lemma MGF1_blocks_length (seed : Buffer) (counter : Z) (n : nat) :
  length (MGF1_blocks seed counter n) = (20 * n)%nat.
Proof.
  revert counter. induction n as [|n IH]; intros counter; cbn [MGF1_blocks].
  - reflexivity.
  - rewrite length_app, SHA1_digest_length, IH. lia.
Qed.

Lemma MGF1_length (seed : Buffer) (len : nat) : length (MGF1 seed len) = len.
Proof.
  unfold MGF1, SHA1.digest_size.
  rewrite length_firstn, MGF1_blocks_length.
  pose proof (Nat.div_mod_eq len 20).
  pose proof (Nat.mod_upper_bound len 20 ltac:(lia)). lia.
Qed.

Lemma OAEP_too_large (tlen : nat) (from : Buffer) (g : Rng) :
  (tlen < length from + 42)%nat ->
  RSA_padding_add_PKCS1_OAEP tlen from g
  = Throw ERR_OSSL_RSA_DATA_TOO_LARGE_FOR_KEY_SIZE.
Proof.
  intros H. unfold RSA_padding_add_PKCS1_OAEP, SHA1.digest_size.
  destruct (Nat.ltb_spec tlen (length from + 2 * 20 + 2)) as [_|Hge]; [|lia].
  reflexivity.
Qed.

(** The shape of an encoded message: a zero octet, then the masked seed
    and the masked data block; as an integer it stays below [256^(tlen-1)]. *)
Lemma encoded_message_shape (maskedSeed maskedDB : Buffer) (tlen : nat) :
  length maskedSeed = 20%nat -> (length maskedDB + 21 = tlen)%nat ->
  length ([x00] ++ maskedSeed ++ maskedDB) = tlen
  /\ OS2IP ([x00] ++ maskedSeed ++ maskedDB) < 256 ^ (Z.of_nat tlen - 1).
Proof.
  intros Hs Hd. split.
  - cbn [app length]. rewrite length_app. lia.
  - change ([x00] ++ maskedSeed ++ maskedDB) with (x00 :: (maskedSeed ++ maskedDB)).
    rewrite OS2IP_leading_zero.
    pose proof (OS2IP_bound (maskedSeed ++ maskedDB)) as Hb.
    rewrite length_app in Hb.
    replace (Z.of_nat tlen - 1) with (Z.of_nat (length maskedSeed + length maskedDB))
      by lia.
    lia.
Qed.

Lemma OAEP_ok (tlen : nat) (from : Buffer) (g : Rng) :
  (length from + 42 <= tlen)%nat ->
  exists em,
    RSA_padding_add_PKCS1_OAEP tlen from g = Ok (em, rng_drop 20 g)
    /\ length em = tlen
    /\ OS2IP em < 256 ^ (Z.of_nat tlen - 1).
Proof.
  intros H. unfold RSA_padding_add_PKCS1_OAEP, SHA1.digest_size.
  destruct (Nat.ltb_spec tlen (length from + 2 * 20 + 2)) as [Hlt|_]; [lia|].
  destruct (Nat.ltb_spec (tlen - 1) (2 * 20 + 1)) as [Hlt|_]; [lia|].
  unfold bind, randomBytes, ret.
  eexists. split; [reflexivity|].
  apply encoded_message_shape.
  - rewrite xor_bytes_length, MGF1_length, rng_take_length. reflexivity.
  - rewrite xor_bytes_length, MGF1_length.
    rewrite !length_app, SHA1_digest_length, repeat_length. cbn [length]. lia.
Qed.

(** ** The raw operation *)

Lemma RSA_public_encrypt_raw (key : RsaKey) (em : Buffer) (g : Rng) :
  sound_key key ->
  length em = RSA_size key ->
  OS2IP em < 256 ^ (Z.of_nat (RSA_size key) - 1) ->
  exists ct,
    RSA_public_encrypt key RSA_NO_PADDING em g = Ok (ct, g)
    /\ length ct = RSA_size key.
Proof.
  intros (Hbits & He & Hbig & Hodd & Hn) Hlen Hem.
  unfold RSA_public_encrypt.
  destruct (Z.eqb_spec (rsa_n key) 0) as [H0|_];
    [rewrite H0 in Hodd; discriminate Hodd|].
  destruct (Z.ltb_spec 16384 (BN_num_bits (rsa_n key))) as [H|_]; [lia|].
  destruct (Z.leb_spec (rsa_n key) (rsa_e key)) as [H|_]; [lia|].
  rewrite Hbig.
  fold (RSA_size key).
  unfold RSA_padding_add_none.
  rewrite <- Hlen, Nat.ltb_irrefl.
  unfold bind, ret.
  rewrite <- Hlen in Hem, Hn.
  destruct (Z.leb_spec (rsa_n key) (OS2IP em)) as [H|_]; [lia|].
  rewrite Hodd.
  eexists. split; [reflexivity|]. apply I2OSP_length.
Qed.

Lemma publicEncrypt_oaep_ok (key : RsaKey) (buffer : Buffer) (g : Rng) :
  sound_key key ->
  (length buffer + 42 <= RSA_size key)%nat ->
  exists ct,
    publicEncrypt_key key RSA_PKCS1_OAEP_PADDING buffer g = Ok (ct, rng_drop 20 g)
    /\ length ct = RSA_size key.
Proof.
  intros Hkey Hlen. unfold publicEncrypt_key.
  destruct (OAEP_ok (RSA_size key) buffer g Hlen) as (em & Hpad & Hem & Hint).
  rewrite (bind_ok _ _ _ _ _ Hpad).
  apply RSA_public_encrypt_raw; assumption.
Qed.

Lemma publicEncrypt_oaep_too_large (key : RsaKey) (buffer : Buffer) (g : Rng) :
  (RSA_size key < length buffer + 42)%nat ->
  publicEncrypt_key key RSA_PKCS1_OAEP_PADDING buffer g
  = Throw ERR_OSSL_RSA_DATA_TOO_LARGE_FOR_KEY_SIZE.
Proof.
  intros Hlen. unfold publicEncrypt_key.
  apply bind_throw, OAEP_too_large, Hlen.
Qed.

(** ** The fixed key *)

Lemma SteamPublicKey_reads : PEM.publicKey SteamPublicKey = Some SteamPublicKey_rsa.
Proof. vm_compute. reflexivity. Qed.

Lemma SteamPublicKey_size : RSA_size SteamPublicKey_rsa = 128%nat.
Proof. vm_compute. reflexivity. Qed.

Lemma SteamPublicKey_sound : sound_key SteamPublicKey_rsa.
Proof.
  unfold sound_key. rewrite SteamPublicKey_size.
  repeat split; vm_compute; try reflexivity; discriminate.
Qed.

(** ** [genSessionKey] *)

Lemma genSessionKey_fits (nonce : Buffer) (g : Rng) :
  (length nonce <= 54)%nat ->
  exists sk,
    genSessionKey nonce g = Ok (sk, rng_drop 20 (rng_drop 32 g))
    /\ plain sk = rng_take 32 g
    /\ length (plain sk) = 32%nat
    /\ length (encrypted sk) = 128%nat.
Proof.
  intros Hlen. unfold genSessionKey.
  rewrite (bind_ok _ _ g (rng_drop 32 g) (rng_take 32 g) eq_refl).
  unfold publicEncrypt_pem. rewrite SteamPublicKey_reads.
  destruct (publicEncrypt_oaep_ok SteamPublicKey_rsa (rng_take 32 g ++ nonce)
              (rng_drop 32 g) SteamPublicKey_sound) as (ct & Henc & Hct).
  { rewrite SteamPublicKey_size, length_app, rng_take_length. lia. }
  rewrite (bind_ok _ _ _ _ _ Henc). unfold ret.
  eexists. split; [reflexivity|]. cbn [plain encrypted].
  split; [reflexivity|]. split; [apply rng_take_length|].
  rewrite Hct. apply SteamPublicKey_size.
Qed.

Lemma genSessionKey_oversized (nonce : Buffer) (g : Rng) :
  (54 < length nonce)%nat ->
  genSessionKey nonce g = Throw ERR_OSSL_RSA_DATA_TOO_LARGE_FOR_KEY_SIZE.
Proof.
  intros Hlen. unfold genSessionKey.
  rewrite (bind_ok _ _ g (rng_drop 32 g) (rng_take 32 g) eq_refl).
  unfold publicEncrypt_pem. rewrite SteamPublicKey_reads.
  apply bind_throw, publicEncrypt_oaep_too_large.
  rewrite SteamPublicKey_size, length_app, rng_take_length. lia.
Qed.

(** C5. For every nonce of 16 octets, [genSessionKey] returns a session key
    whose [plain] member has exactly 32 octets and whose [encrypted] member
    has exactly 128. *)
Theorem genSessionKey_lengths (nonce : Buffer) (g : Rng) :
  length nonce = 16%nat ->
  exists sk g',
    genSessionKey nonce g = Ok (sk, g')
    /\ length (plain sk) = 32%nat
    /\ length (encrypted sk) = 128%nat.
Proof.
  intros Hlen.
  destruct (genSessionKey_fits nonce g ltac:(lia)) as (sk & Hrun & _ & Hp & He).
  exists sk, (rng_drop 20 (rng_drop 32 g)). auto.
Qed.

(** C8. [genSessionKey] does not look at the length of the nonce.  Whenever
    the 32 octets of the key and the nonce together fit the RSA-OAEP limit
    of the fixed 1024-bit key, 86 octets, the call returns, with a plain
    key of 32 octets and an encrypted value of 128, whether or not the
    nonce has 16 octets; a longer nonce meets the size error of the RSA
    operation, which is the only exception the call has, and no validation
    error. *)
Theorem genSessionKey_no_nonce_validation (nonce : Buffer) (g : Rng) :
  ((32 + length nonce <= 86)%nat ->
   exists sk g',
     genSessionKey nonce g = Ok (sk, g')
     /\ length (plain sk) = 32%nat
     /\ length (encrypted sk) = 128%nat)
  /\ ((86 < 32 + length nonce)%nat ->
      genSessionKey nonce g = Throw ERR_OSSL_RSA_DATA_TOO_LARGE_FOR_KEY_SIZE).
Proof.
  split; intros Hlen.
  - destruct (genSessionKey_fits nonce g ltac:(lia)) as (sk & Hrun & _ & Hp & He).
    exists sk, (rng_drop 20 (rng_drop 32 g)). auto.
  - apply genSessionKey_oversized. lia.
Qed.

(** ** [rsaEncrypt] *)

Lemma utf8_of_bytes (l : list byte) : utf8 (string_of_list_byte l) = l.
Proof. apply list_byte_of_string_of_list_byte. Qed.

Lemma list_pair_ind {A : Type} (P : list A -> Prop) :
  P [] -> (forall a, P [a]) -> (forall a b l, P l -> P (a :: b :: l)) ->
  forall l, P l.
Proof.
  intros H0 H1 H2 l.
  assert (H : P l /\ forall a, P (a :: l)).
  { induction l as [|b l [IHl IHc]]; split; auto. }
  apply H.
Qed.

Lemma hex_prefix_well_formed (s : list byte) :
  Hex.well_formed (hex_prefix s) = true.
Proof.
  unfold Hex.well_formed.
  induction s as [|a|a b rest IH] using list_pair_ind; try reflexivity.
  cbn [hex_prefix].
  destruct (Hex.is_digit a) eqn:Ha, (Hex.is_digit b) eqn:Hb; try reflexivity.
  cbn [andb forallb length Nat.even]. rewrite Ha, Hb. cbn [andb].
  apply IH.
Qed.

Lemma hex_decode_prefix (s : list byte) :
  Hex.decode s = Hex.decode (hex_prefix s).
Proof.
  induction s as [|a|a b rest IH] using list_pair_ind; try reflexivity.
  cbn [hex_prefix Hex.decode]. unfold Hex.is_digit.
  destruct (Hex.unhex a) as [x|] eqn:Ha; [|reflexivity].
  destruct (Hex.unhex b) as [y|] eqn:Hb; [|reflexivity].
  cbn [andb Hex.decode]. rewrite Ha, Hb.
  f_equal. apply IH.
Qed.

Lemma hex_prefix_of_well_formed (s : list byte) :
  Hex.well_formed s = true -> hex_prefix s = s.
Proof.
  unfold Hex.well_formed.
  induction s as [|a|a b rest IH] using list_pair_ind; intros H.
  - reflexivity.
  - cbn in H. rewrite andb_false_r in H. discriminate.
  - cbn [forallb length Nat.even] in H.
    apply andb_true_iff in H as [H Hev].
    apply andb_true_iff in H as [Ha H].
    apply andb_true_iff in H as [Hb H].
    cbn [hex_prefix]. rewrite Ha, Hb. cbn [andb]. f_equal. f_equal.
    apply IH. rewrite H, Hev. reflexivity.
Qed.

(** C7, as the code has it.  [rsaEncrypt] validates neither text: of a
    modulus or exponent that is not well-formed hex, [Buffer.from(_, "hex")]
    keeps the well-formed prefix (whole pairs of hex digits up to the first
    pair that is not one, a trailing single character dropped), and the
    call goes on exactly as it does on those prefixes, returning a
    ciphertext whenever it does for them. *)
Theorem rsaEncrypt_decodes_hex_prefix (password publicKeyMod publicKeyExp : string)
        (g : Rng) :
  let modPrefix := string_of_list_byte (hex_prefix (utf8 publicKeyMod)) in
  let expPrefix := string_of_list_byte (hex_prefix (utf8 publicKeyExp)) in
  Hex.well_formed (utf8 modPrefix) = true
  /\ Hex.well_formed (utf8 expPrefix) = true
  /\ (Hex.well_formed (utf8 publicKeyMod) = true -> modPrefix = publicKeyMod)
  /\ (Hex.well_formed (utf8 publicKeyExp) = true -> expPrefix = publicKeyExp)
  /\ rsaEncrypt password publicKeyMod publicKeyExp g
     = rsaEncrypt password modPrefix expPrefix g.
Proof.
  intros modPrefix expPrefix. unfold modPrefix, expPrefix.
  rewrite !utf8_of_bytes.
  split; [apply hex_prefix_well_formed|].
  split; [apply hex_prefix_well_formed|].
  split; [|split].
  - intros H. rewrite (hex_prefix_of_well_formed _ H).
    apply string_of_list_byte_of_string.
  - intros H. rewrite (hex_prefix_of_well_formed _ H).
    apply string_of_list_byte_of_string.
  - unfold rsaEncrypt, Buffer_from_hex.
    rewrite !utf8_of_bytes, <- !hex_decode_prefix. reflexivity.
Qed.

(** The run of the repository's own test "should encrypt password and
    return base64 string": the modulus text has an odd number of digits and
    the call returns a ciphertext. *)
Lemma rsaEncrypt_test_run :
  Hex.well_formed (utf8 testPublicKeyMod) = false
  /\ run (rsaEncrypt "testpassword123" testPublicKeyMod testPublicKeyExp) sample_rng
     = Ok "X5huZAHmd75aK7iBsmQy/CUQHfzMAynkkkDsx8djj950VjVfekKDQuzHb8TuKJkybgqPuesnQM7p0OobaHMij/fAmvJiNbA="%string.
Proof. split; vm_compute; reflexivity. Qed.

(** C7 does not hold of the code: a malformed modulus (here, the odd-length
    text the tests use) is not refused. *)
Lemma rsaEncrypt_malformed_hex_not_rejected :
  ~ (forall (password publicKeyMod publicKeyExp : string) (g : Rng),
        Hex.well_formed (utf8 publicKeyMod) = false
        \/ Hex.well_formed (utf8 publicKeyExp) = false ->
        exists e, rsaEncrypt password publicKeyMod publicKeyExp g = Throw e).
Proof.
  intros Hclaim.
  destruct rsaEncrypt_test_run as (Hbad & Hrun).
  destruct (Hclaim "testpassword123"%string testPublicKeyMod testPublicKeyExp
              sample_rng (or_introl Hbad)) as (e & He).
  unfold run in Hrun. rewrite He in Hrun. discriminate Hrun.
Qed.

(** ** AES-256 is a block cipher *)

Lemma all_bytes_complete (b : byte) : In b AES.all_bytes.
Proof.
  unfold AES.all_bytes. apply in_map_iff.
  exists (Z.to_nat (byte_to_Z b)). pose proof (byte_to_Z_range b) as Hr. split.
  - rewrite Z2Nat.id by lia. apply byte_of_to_Z.
  - apply in_seq. lia.
Qed.

Lemma forall_bytes (P : byte -> bool) :
  forallb P AES.all_bytes = true -> forall b, P b = true.
Proof.
  intros H b. rewrite forallb_forall in H. apply H, all_bytes_complete.
Qed.

Lemma forall_bytes2 (P : byte -> byte -> bool) :
  forallb (fun a => forallb (P a) AES.all_bytes) AES.all_bytes = true ->
  forall a b, P a b = true.
Proof.
  intros H a b.
  apply (forall_bytes (P a)). apply (forall_bytes _ H).
Qed.

Lemma byte_eqb_eq (a b : byte) : Byte.eqb a b = true -> a = b.
Proof. apply Byte.byte_dec_bl. Qed.

Lemma byte_to_Z_xor (a b : byte) :
  byte_to_Z (byte_xor a b) = Z.lxor (byte_to_Z a) (byte_to_Z b).
Proof.
  unfold byte_xor. rewrite byte_to_of_Z.
  apply lxor_octets; apply byte_to_Z_range.
Qed.

Lemma byte_xor_0_r (a : byte) : byte_xor a x00 = a.
Proof.
  apply byte_to_Z_inj. rewrite byte_to_Z_xor.
  change (byte_to_Z x00) with 0. apply Z.lxor_0_r.
Qed.

Lemma byte_xor_0_l (a : byte) : byte_xor x00 a = a.
Proof.
  apply byte_to_Z_inj. rewrite byte_to_Z_xor.
  change (byte_to_Z x00) with 0. apply Z.lxor_0_l.
Qed.

(** Sums of four, added term by term. *)
Lemma x4_interchange (p q r s p' q' r' s' : byte) :
  AES.x4 (byte_xor p p') (byte_xor q q') (byte_xor r r') (byte_xor s s')
  = byte_xor (AES.x4 p q r s) (AES.x4 p' q' r' s').
Proof.
  unfold AES.x4. apply byte_to_Z_inj. rewrite !byte_to_Z_xor.
  apply Z.bits_inj'. intros n Hn. rewrite !Z.lxor_spec.
  destruct (Z.testbit (byte_to_Z p) n), (Z.testbit (byte_to_Z q) n),
    (Z.testbit (byte_to_Z r) n), (Z.testbit (byte_to_Z s) n),
    (Z.testbit (byte_to_Z p') n), (Z.testbit (byte_to_Z q') n),
    (Z.testbit (byte_to_Z r') n), (Z.testbit (byte_to_Z s') n); reflexivity.
Qed.

Lemma xor_interchange (p q p' q' : byte) :
  byte_xor (byte_xor p p') (byte_xor q q')
  = byte_xor (byte_xor p q) (byte_xor p' q').
Proof.
  apply byte_to_Z_inj. rewrite !byte_to_Z_xor.
  apply Z.bits_inj'. intros n Hn. rewrite !Z.lxor_spec.
  destruct (Z.testbit (byte_to_Z p) n), (Z.testbit (byte_to_Z q) n),
    (Z.testbit (byte_to_Z p') n), (Z.testbit (byte_to_Z q') n); reflexivity.
Qed.

(** Multiplication by [x] is additive: checked on all pairs of octets. *)
Lemma xtime_additive_checked :
  forallb (fun a => forallb (fun b =>
    Byte.eqb (AES.xtime (byte_xor a b)) (byte_xor (AES.xtime a) (AES.xtime b)))
    AES.all_bytes) AES.all_bytes = true.
Proof. vm_compute. reflexivity. Qed.

Lemma xtime_additive (a b : byte) :
  AES.xtime (byte_xor a b) = byte_xor (AES.xtime a) (AES.xtime b).
Proof.
  apply byte_eqb_eq.
  apply (forall_bytes2
           (fun a b => Byte.eqb (AES.xtime (byte_xor a b))
                                (byte_xor (AES.xtime a) (AES.xtime b)))
           xtime_additive_checked).
Qed.

Lemma mul2_additive (a b : byte) :
  AES.mul2 (byte_xor a b) = byte_xor (AES.mul2 a) (AES.mul2 b).
Proof. apply xtime_additive. Qed.

Lemma mul3_additive (a b : byte) :
  AES.mul3 (byte_xor a b) = byte_xor (AES.mul3 a) (AES.mul3 b).
Proof. unfold AES.mul3. rewrite xtime_additive. apply xor_interchange. Qed.

Lemma mul9_additive (a b : byte) :
  AES.mul9 (byte_xor a b) = byte_xor (AES.mul9 a) (AES.mul9 b).
Proof. unfold AES.mul9. rewrite !xtime_additive. apply xor_interchange. Qed.

Lemma mul11_additive (a b : byte) :
  AES.mul11 (byte_xor a b) = byte_xor (AES.mul11 a) (AES.mul11 b).
Proof.
  unfold AES.mul11. rewrite !xtime_additive.
  rewrite (xor_interchange (AES.xtime (AES.xtime (AES.xtime a)))).
  apply xor_interchange.
Qed.

Lemma mul13_additive (a b : byte) :
  AES.mul13 (byte_xor a b) = byte_xor (AES.mul13 a) (AES.mul13 b).
Proof.
  unfold AES.mul13. rewrite !xtime_additive.
  rewrite (xor_interchange (AES.xtime (AES.xtime (AES.xtime a)))).
  apply xor_interchange.
Qed.

Lemma mul14_additive (a b : byte) :
  AES.mul14 (byte_xor a b) = byte_xor (AES.mul14 a) (AES.mul14 b).
Proof.
  unfold AES.mul14. rewrite !xtime_additive.
  rewrite (xor_interchange (AES.xtime (AES.xtime (AES.xtime a)))).
  apply xor_interchange.
Qed.

(** Both column maps are additive, so is their composition. *)
Lemma mix_column_additive (u v : AES.Column) :
  AES.mix_column (AES.word_xor u v)
  = AES.word_xor (AES.mix_column u) (AES.mix_column v).
Proof.
  destruct u as [[[a b] c] d], v as [[[a' b'] c'] d'].
  unfold AES.mix_column, AES.word_xor.
  rewrite !mul2_additive, !mul3_additive, !x4_interchange. reflexivity.
Qed.

Lemma inv_mix_column_additive (u v : AES.Column) :
  AES.inv_mix_column (AES.word_xor u v)
  = AES.word_xor (AES.inv_mix_column u) (AES.inv_mix_column v).
Proof.
  destruct u as [[[a b] c] d], v as [[[a' b'] c'] d'].
  unfold AES.inv_mix_column, AES.word_xor.
  rewrite !mul9_additive, !mul11_additive, !mul13_additive, !mul14_additive,
    !x4_interchange.
  reflexivity.
Qed.

(** On a column with one non-zero octet, the inverse map undoes the map:
    checked for each position and each octet. *)
Lemma inv_mix_unit_checked :
  forallb (fun a => forallb (fun u =>
    column_eqb (AES.inv_mix_column (AES.mix_column u)) u) (unit_columns a))
    AES.all_bytes = true.
Proof. vm_compute. reflexivity. Qed.

Lemma column_eqb_eq (u v : AES.Column) : column_eqb u v = true -> u = v.
Proof.
  destruct u as [[[a b] c] d], v as [[[a' b'] c'] d']. unfold column_eqb.
  intros H. apply andb_true_iff in H as [H Hd].
  apply andb_true_iff in H as [H Hc]. apply andb_true_iff in H as [Ha Hb].
  apply byte_eqb_eq in Ha, Hb, Hc, Hd. subst. reflexivity.
Qed.

Lemma inv_mix_unit (a : byte) (u : AES.Column) :
  In u (unit_columns a) -> AES.inv_mix_column (AES.mix_column u) = u.
Proof.
  intros Hin. apply column_eqb_eq.
  pose proof (forall_bytes _ inv_mix_unit_checked a) as H.
  cbv beta in H. rewrite forallb_forall in H. apply H, Hin.
Qed.

Lemma inv_mix_column_mix_column (col : AES.Column) :
  AES.inv_mix_column (AES.mix_column col) = col.
Proof.
  destruct col as [[[a b] c] d].
  assert (Hsum : (a, b, c, d)
                 = AES.word_xor (AES.word_xor (a, x00, x00, x00) (x00, b, x00, x00))
                     (AES.word_xor (x00, x00, c, x00) (x00, x00, x00, d))).
  { unfold AES.word_xor. rewrite !byte_xor_0_r, !byte_xor_0_l. reflexivity. }
  rewrite Hsum at 1.
  rewrite !mix_column_additive, !inv_mix_column_additive.
  rewrite (inv_mix_unit a), (inv_mix_unit b), (inv_mix_unit c), (inv_mix_unit d);
    [symmetry; exact Hsum | | | |]; cbn; auto.
Qed.

(** ** The state transformations and their inverses *)

Lemma inv_sbox_checked :
  forallb (fun b => Byte.eqb (AES.inv_sbox (AES.sbox b)) b) AES.all_bytes = true.
Proof. vm_compute. reflexivity. Qed.

Lemma inv_sbox_sbox (b : byte) : AES.inv_sbox (AES.sbox b) = b.
Proof. apply byte_eqb_eq, (forall_bytes _ inv_sbox_checked). Qed.

Lemma InvSubBytes_SubBytes (s : AES.State) : AES.InvSubBytes (AES.SubBytes s) = s.
Proof.
  unfold AES.InvSubBytes, AES.SubBytes. rewrite map_map.
  rewrite <- (map_id s) at 2. apply map_ext, inv_sbox_sbox.
Qed.

(** A state is sixteen octets. *)
Lemma sixteen (s : Buffer) :
  length s = 16%nat ->
  exists s0 s1 s2 s3 s4 s5 s6 s7 s8 s9 s10 s11 s12 s13 s14 s15,
    s = [s0; s1; s2; s3; s4; s5; s6; s7; s8; s9; s10; s11; s12; s13; s14; s15].
Proof.
  intros H.
  do 16 (destruct s as [|? s]; [discriminate H|]).
  destruct s; [|discriminate H].
  repeat eexists.
Qed.

Lemma InvShiftRows_ShiftRows (s : AES.State) :
  length s = 16%nat -> AES.InvShiftRows (AES.ShiftRows s) = s.
Proof.
  intros H.
  destruct (sixteen s H)
    as (s0 & s1 & s2 & s3 & s4 & s5 & s6 & s7 & s8 & s9 & s10 & s11 & s12
        & s13 & s14 & s15 & ->).
  reflexivity.
Qed.

Lemma InvMixColumns_MixColumns (s : AES.State) :
  length s = 16%nat -> AES.InvMixColumns (AES.MixColumns s) = s.
Proof.
  intros H.
  destruct (sixteen s H)
    as (s0 & s1 & s2 & s3 & s4 & s5 & s6 & s7 & s8 & s9 & s10 & s11 & s12
        & s13 & s14 & s15 & ->).
  pose proof (inv_mix_column_mix_column (s0, s1, s2, s3)) as H0.
  pose proof (inv_mix_column_mix_column (s4, s5, s6, s7)) as H1.
  pose proof (inv_mix_column_mix_column (s8, s9, s10, s11)) as H2.
  pose proof (inv_mix_column_mix_column (s12, s13, s14, s15)) as H3.
  cbv [AES.InvMixColumns AES.MixColumns AES.on_columns flat_map AES.column
       Nat.mul Nat.add nth].
  destruct (AES.mix_column (s0, s1, s2, s3)) as [[[a0 b0] c0] d0].
  destruct (AES.mix_column (s4, s5, s6, s7)) as [[[a1 b1] c1] d1].
  destruct (AES.mix_column (s8, s9, s10, s11)) as [[[a2 b2] c2] d2].
  destruct (AES.mix_column (s12, s13, s14, s15)) as [[[a3 b3] c3] d3].
  cbv [AES.column_bytes app].
  rewrite H0, H1, H2, H3. reflexivity.
Qed.

Lemma permute_length (p : list nat) (s : AES.State) :
  length (AES.permute p s) = length p.
Proof. unfold AES.permute. apply length_map. Qed.

Lemma on_columns_length (f : AES.Column -> AES.Column) (s : AES.State) :
  length (AES.on_columns f s) = 16%nat.
Proof.
  unfold AES.on_columns. cbn [flat_map].
  repeat match goal with
         | |- context [AES.column_bytes ?c] =>
             let x := fresh in
             remember c as x; destruct x as [[[? ?] ?] ?]; cbn [AES.column_bytes]
         end.
  reflexivity.
Qed.

Lemma round_key_length (w : list AES.Column) (r : nat) :
  length (AES.round_key w r) = 16%nat.
Proof.
  unfold AES.round_key. cbn [flat_map].
  repeat match goal with
         | |- context [AES.column_bytes ?c] =>
             let x := fresh in
             remember c as x; destruct x as [[[? ?] ?] ?]; cbn [AES.column_bytes]
         end.
  reflexivity.
Qed.

Lemma round_keys_sixteen (key rk : Buffer) :
  In rk (AES.round_keys key) -> length rk = 16%nat.
Proof.
  unfold AES.round_keys. intros H. apply in_map_iff in H as (r & <- & _).
  apply round_key_length.
Qed.

Lemma round_keys_length (key : Buffer) : length (AES.round_keys key) = 15%nat.
Proof. unfold AES.round_keys. rewrite length_map, length_seq. reflexivity. Qed.

Lemma AddRoundKey_involutive (s rk : Buffer) :
  length s = 16%nat -> length rk = 16%nat ->
  AES.AddRoundKey (AES.AddRoundKey s rk) rk = s.
Proof. intros Hs Hrk. apply xor_bytes_involutive. lia. Qed.

Lemma AddRoundKey_length (s rk : Buffer) :
  length s = 16%nat -> length rk = 16%nat ->
  length (AES.AddRoundKey s rk) = 16%nat.
Proof.
  intros Hs Hrk. unfold AES.AddRoundKey. rewrite xor_bytes_length. lia.
Qed.

Lemma round_length (s rk : Buffer) :
  length rk = 16%nat -> length (AES.round s rk) = 16%nat.
Proof.
  intros Hrk. unfold AES.round.
  apply AddRoundKey_length; [apply on_columns_length | exact Hrk].
Qed.

Lemma inv_round_round (s rk : Buffer) :
  length s = 16%nat -> length rk = 16%nat ->
  AES.inv_round (AES.round s rk) rk = s.
Proof.
  intros Hs Hrk. unfold AES.inv_round, AES.round.
  rewrite AddRoundKey_involutive by (try apply on_columns_length; assumption).
  rewrite InvMixColumns_MixColumns by apply permute_length.
  rewrite InvShiftRows_ShiftRows
    by (unfold AES.SubBytes; rewrite length_map; exact Hs).
  apply InvSubBytes_SubBytes.
Qed.

Lemma inv_final_round_final_round (s rk : Buffer) :
  length s = 16%nat -> length rk = 16%nat ->
  AES.inv_final_round (AES.final_round s rk) rk = s.
Proof.
  intros Hs Hrk. unfold AES.inv_final_round, AES.final_round.
  rewrite AddRoundKey_involutive by (try apply permute_length; assumption).
  rewrite InvShiftRows_ShiftRows
    by (unfold AES.SubBytes; rewrite length_map; exact Hs).
  apply InvSubBytes_SubBytes.
Qed.

Lemma rounds_length (rks : list Buffer) (s : Buffer) :
  (forall rk, In rk rks -> length rk = 16%nat) -> length s = 16%nat ->
  length (fold_left AES.round rks s) = 16%nat.
Proof.
  revert s. induction rks as [|rk rks IH]; intros s Hrks Hs; cbn [fold_left].
  - exact Hs.
  - apply IH; [intros; apply Hrks; right; assumption|].
    apply round_length, Hrks. left. reflexivity.
Qed.

Lemma inv_rounds_rounds (rks : list Buffer) (s : Buffer) :
  (forall rk, In rk rks -> length rk = 16%nat) -> length s = 16%nat ->
  fold_left AES.inv_round (rev rks) (fold_left AES.round rks s) = s.
Proof.
  revert s. induction rks as [|rk rks IH]; intros s Hrks Hs.
  - reflexivity.
  - cbn [fold_left rev]. rewrite fold_left_app. cbn [fold_left].
    rewrite IH.
    + apply inv_round_round; [exact Hs|]. apply Hrks. left. reflexivity.
    + intros; apply Hrks; right; assumption.
    + apply round_length, Hrks. left. reflexivity.
Qed.

Lemma in_firstn {A : Type} (n : nat) (l : list A) (x : A) :
  In x (firstn n l) -> In x l.
Proof.
  revert l. induction n as [|n IH]; intros [|y l] H; cbn in *; try tauto.
  destruct H as [H|H]; [left; exact H | right; apply IH, H].
Qed.

Lemma in_skipn {A : Type} (n : nat) (l : list A) (x : A) :
  In x (skipn n l) -> In x l.
Proof.
  revert l. induction n as [|n IH]; intros [|y l] H; cbn in *; try tauto.
  right. apply IH, H.
Qed.

Lemma middle_sixteen (key rk : Buffer) :
  In rk (AES.middle (AES.round_keys key)) -> length rk = 16%nat.
Proof.
  unfold AES.middle. intros H.
  apply (round_keys_sixteen key).
  apply (in_skipn 1), (in_firstn 13), H.
Qed.

Lemma nth_round_key (key : Buffer) (r : nat) :
  (r < 15)%nat -> length (nth r (AES.round_keys key) []) = 16%nat.
Proof.
  intros Hr. apply (round_keys_sixteen key), nth_In.
  rewrite round_keys_length. exact Hr.
Qed.

Lemma Cipher_length (key block : Buffer) :
  length block = 16%nat -> length (AES.Cipher key block) = 16%nat.
Proof.
  intros Hb. unfold AES.Cipher, AES.final_round.
  apply AddRoundKey_length; [apply permute_length|].
  apply nth_round_key. lia.
Qed.

Lemma InvCipher_length (key block : Buffer) :
  length block = 16%nat -> length (AES.InvCipher key block) = 16%nat.
Proof.
  intros Hb. unfold AES.InvCipher.
  apply AddRoundKey_length; [|apply nth_round_key; lia].
  assert (Hinv : forall s rk, length (AES.inv_round s rk) = 16%nat).
  { intros s rk. unfold AES.inv_round, AES.InvSubBytes.
    rewrite length_map. apply permute_length. }
  destruct (rev (AES.middle (AES.round_keys key))) as [|rk l] eqn:E using rev_ind.
  - cbn [fold_left]. unfold AES.inv_final_round, AES.InvSubBytes.
    rewrite length_map. apply permute_length.
  - rewrite fold_left_app. cbn [fold_left]. apply Hinv.
Qed.

Lemma InvCipher_Cipher (key block : Buffer) :
  length block = 16%nat -> AES.InvCipher key (AES.Cipher key block) = block.
Proof.
  intros Hb. unfold AES.InvCipher, AES.Cipher.
  pose proof (nth_round_key key 0 ltac:(lia)) as H0.
  pose proof (nth_round_key key 14 ltac:(lia)) as H14.
  rewrite inv_final_round_final_round; [| |exact H14].
  - rewrite inv_rounds_rounds.
    + apply AddRoundKey_involutive; assumption.
    + apply middle_sixteen.
    + apply AddRoundKey_length; assumption.
  - apply rounds_length; [apply middle_sixteen|].
    apply AddRoundKey_length; assumption.
Qed.

(** AES-256 keeps the laws of a block cipher (for a key of any length: the
    schedule reads absent key octets as zero; the objects above only build
    it from 32). *)
Lemma AES256_laws : BlockCipherLaws AES256.
Proof.
  split; intros key blk _ Hblk; cbn [aes256_encrypt_block aes256_decrypt_block AES256].
  - apply Cipher_length, Hblk.
  - apply InvCipher_length, Hblk.
  - apply InvCipher_Cipher, Hblk.
Qed.

(** ** The claims at AES-256, on the key 00 01 ... 1f of FIPS 197 *)

Lemma decrypt_encrypt_roundtrip_witness :
  length fips_key = 32%nat
  /\ exists frame g',
       encrypt (C := AES256) (utf8 "Hello, Steam!") fips_key sample_rng
       = Ok (frame, g')
       /\ decrypt (C := AES256) frame fips_key = Ok (utf8 "Hello, Steam!").
Proof.
  split; [reflexivity|].
  apply (decrypt_encrypt_roundtrip AES256_laws). reflexivity.
Defined.

Lemma encrypt_frame_layout_witness :
  length fips_key = 32%nat
  /\ exists encryptedIV ciphertext g' N,
       encrypt (C := AES256) [] fips_key sample_rng
       = Ok (encryptedIV ++ ciphertext, g')
       /\ length encryptedIV = 16%nat
       /\ ciphertext
          = Standard.AES_256_CBC_encrypt (C := AES256) fips_key
              (Standard.hmac_iv fips_key (rng_take 3 sample_rng) []) []
       /\ length ciphertext = (N * 16)%nat
       /\ (1 <= N)%nat
       /\ N = (length (@nil byte) / 16 + 1)%nat
       /\ (length (@nil byte) < N * 16 <= length (@nil byte) + 16)%nat.
Proof.
  split; [reflexivity|].
  apply (encrypt_frame_layout AES256_laws). reflexivity.
Defined.

Lemma encrypt_hmac_iv_ecb_cbc_witness :
  length fips_key = 32%nat
  /\ rng_take 3 sample_rng = [x01; x08; x0f]
  /\ let p := utf8 "Hello, Steam!" in
     let r := [x01; x08; x0f] in
     let IV := firstn 13 (HMAC_SHA1 (firstn 16 fips_key) (r ++ p)) ++ r in
     length r = 3%nat
     /\ generateHmacIV p fips_key sample_rng = Ok (IV, rng_drop 3 sample_rng)
     /\ exists out,
          encrypt (C := AES256) p fips_key sample_rng = Ok (out, rng_drop 3 sample_rng)
          /\ firstn 16 out = Standard.AES_256_ECB_encrypt (C := AES256) fips_key IV
          /\ skipn 16 out = Standard.AES_256_CBC_encrypt (C := AES256) fips_key IV p.
Proof.
  split; [reflexivity|]. split; [reflexivity|].
  apply (encrypt_hmac_iv_ecb_cbc AES256_laws); reflexivity.
Defined.

Lemma decrypt_rejects_bad_framing_witness :
  length fips_key = 32%nat
  /\ ((length [x01; x02; x03] < 16)%nat
      \/ ((length [x01; x02; x03] - 16) mod 16 <> 0)%nat)
  /\ (forall out, decrypt (C := AES256) [x01; x02; x03] fips_key <> Ok out)
  /\ decrypt (C := AES256) [x01; x02; x03] fips_key
     = Throw ERR_OSSL_WRONG_FINAL_BLOCK_LENGTH
  /\ ([x01; x02; x03] <> [] ->
      exists e, decrypt (C := AES256) [x01; x02; x03] fips_key = Throw e
                /\ integrity_error e = true).
Proof.
  split; [reflexivity|]. split; [left; cbn; lia|].
  apply (decrypt_rejects_bad_framing AES256_laws [x01; x02; x03] fips_key).
  - reflexivity.
  - left. cbn. lia.
Defined.

(** C6 as the specification words it does not hold of the code: the empty
    frame is shorter than 16 octets, and what [decrypt] throws for it is
    not an integrity error. *)
Lemma decrypt_empty_frame_no_integrity_error :
  ~ (forall frame k : Buffer,
        length k = 32%nat ->
        (length frame < 16)%nat \/ ((length frame - 16) mod 16 <> 0)%nat ->
        exists e, decrypt (C := AES256) frame k = Throw e
                  /\ integrity_error e = true).
Proof.
  intros Hclaim.
  destruct (Hclaim [] fips_key eq_refl) as (e & He & Hkind).
  - left. cbn. lia.
  - rewrite (decrypt_empty (C := AES256) fips_key eq_refl) in He.
    injection He as <-. discriminate Hkind.
Qed.

Lemma decrypt_rejects_bare_iv_witness :
  length fips_key = 32%nat
  /\ length (repeat x00 16) = 16%nat
  /\ decrypt (C := AES256) (repeat x00 16) fips_key
     = Throw ERR_OSSL_WRONG_FINAL_BLOCK_LENGTH
  /\ decrypt (C := AES256) (repeat x00 16) fips_key <> Ok []
  /\ forall out, decrypt (C := AES256) (repeat x00 16) fips_key <> Ok out.
Proof.
  split; [reflexivity|]. split; [reflexivity|].
  apply (decrypt_rejects_bare_iv AES256_laws); reflexivity.
Defined.

Lemma genSessionKey_lengths_witness :
  length (repeat x00 16) = 16%nat
  /\ exists sk g',
       genSessionKey (repeat x00 16) sample_rng = Ok (sk, g')
       /\ length (plain sk) = 32%nat
       /\ length (encrypted sk) = 128%nat.
Proof.
  split; [reflexivity|].
  apply genSessionKey_lengths. reflexivity.
Defined.

(** The model against the published vectors: FIPS 197 C.3 for the block
    cipher, FIPS 180 for SHA-1 ("abc"), RFC 2202 for HMAC-SHA1. *)
Lemma published_vectors :
  AES.Cipher fips_key (Buffer_from_hex "00112233445566778899aabbccddeeff")
  = Buffer_from_hex "8ea2b7ca516745bfeafc49904b496089"
  /\ SHA1.digest (utf8 "abc")
     = Buffer_from_hex "a9993e364706816aba3e25717850c26c9cd0d89d"
  /\ HMAC_SHA1 (utf8 "Jefe") (utf8 "what do ya want for nothing?")
     = Buffer_from_hex "effcdf6ae5eb2fa2d27416d5f184df9c259a7c79".
Proof. repeat split; vm_compute; reflexivity. Qed.

(** ** Further properties of the payload cipher *)

Section PayloadCipherMore.
Context {C : BlockCipher}.

Lemma create_bad_key (dir : Direction) (alg : Algorithm) (key iv : Buffer) :
  length iv = iv_length alg -> length key <> 32%nat ->
  create dir alg key iv = Throw ERR_CRYPTO_INVALID_KEYLEN.
Proof.
  intros Hiv Hkey. unfold create.
  rewrite Hiv, Nat.eqb_refl. cbn [negb].
  apply Nat.eqb_neq in Hkey. unfold key_length. rewrite Hkey. reflexivity.
Qed.

(** X1. A key that has not 32 octets is refused by both directions with
    the invalid-key-length error, whatever the data; [encrypt] has already
    drawn its three random octets by then. *)
Theorem wrong_key_length_rejected (data frame key : Buffer) (g : Rng) :
  length key <> 32%nat ->
  encrypt data key g = Throw ERR_CRYPTO_INVALID_KEYLEN
  /\ decrypt frame key = Throw ERR_CRYPTO_INVALID_KEYLEN.
Proof.
  intros Hkey. split.
  - unfold encrypt, bind at 1. rewrite generateHmacIV_spec.
    unfold createCipheriv.
    rewrite (create_bad_key Encipher aes_256_ecb key []) by (reflexivity || exact Hkey).
    reflexivity.
  - unfold decrypt, createDecipheriv.
    rewrite (create_bad_key Decipher aes_256_ecb key []) by (reflexivity || exact Hkey).
    reflexivity.
Qed.

End PayloadCipherMore.

Lemma wrong_key_length_rejected_witness :
  length (repeat x00 16) <> 32%nat
  /\ encrypt (C := AES256) (utf8 "Hello, Steam!") (repeat x00 16) sample_rng
     = Throw ERR_CRYPTO_INVALID_KEYLEN
  /\ decrypt (C := AES256) (repeat x00 48) (repeat x00 16)
     = Throw ERR_CRYPTO_INVALID_KEYLEN.
Proof.
  split; [cbn; lia|].
  apply (wrong_key_length_rejected (C := AES256)). cbn. lia.
Defined.

Lemma unpadblock_outcomes (blk : Buffer) :
  length blk = 16%nat ->
  unpadblock blk = Throw ERR_OSSL_BAD_DECRYPT
  \/ exists data, unpadblock blk = Ok data /\ (length data < 16)%nat.
Proof.
  intros Hblk. unfold unpadblock, block_size.
  set (pad := byte_to_Z (last blk x00)).
  destruct ((pad =? 0) || (Z.of_nat 16 <? pad)) eqn:Hpad; [left; reflexivity|].
  apply orb_false_iff in Hpad as [H0 H16].
  apply Z.eqb_neq in H0. apply Z.ltb_ge in H16.
  pose proof (byte_to_Z_range (last blk x00)) as Hr. fold pad in Hr.
  destruct (forallb _ _); [right | left; reflexivity].
  eexists. split; [reflexivity|].
  rewrite length_firstn. lia.
Qed.

Section DecryptOutcomes.
Context {C : BlockCipher} {L : BlockCipherLaws C}.

Lemma cbc_decipher_chain_length (key : Buffer) (n : nat) (iv ct : Buffer) :
  length iv = 16%nat -> (n * 16 <= length ct)%nat ->
  length (snd (process aes_256_cbc Decipher key n iv ct)) = 16%nat.
Proof.
  revert iv ct. induction n as [|n IH]; intros iv ct Hiv Hlen.
  - exact Hiv.
  - cbn [process transform].
    assert (Hblk : length (firstn block_size ct) = 16%nat).
    { unfold block_size. rewrite length_firstn. lia. }
    specialize (IH (firstn block_size ct) (skipn block_size ct) Hblk).
    rewrite length_skipn in IH. unfold block_size in IH at 1.
    specialize (IH ltac:(lia)).
    destruct (process aes_256_cbc Decipher key n (firstn block_size ct)
                      (skipn block_size ct)) as [outs c2].
    exact IH.
Qed.

(** X2. On a frame whose length is right (an encrypted IV and [n + 1]
    whole blocks), under a key of 32 octets, [decrypt] either returns data
    of at least [16 n] and fewer than [16 (n + 1)] octets, or throws the
    bad-decrypt error of the padding check; nothing else. *)
Theorem decrypt_outcomes (frame key : Buffer) (n : nat) :
  length key = 32%nat ->
  length frame = (16 + (n + 1) * 16)%nat ->
  decrypt frame key = Throw ERR_OSSL_BAD_DECRYPT
  \/ exists data,
       decrypt frame key = Ok data
       /\ (n * 16 <= length data < (n + 1) * 16)%nat.
Proof.
  intros Hkey Hlen.
  remember (decrypt frame key) as r eqn:Hr.
  unfold decrypt, createDecipheriv in Hr.
  rewrite (create_ok key Hkey Decipher aes_256_ecb []) in Hr by reflexivity.
  unfold result_bind at 1 in Hr.
  assert (Hsub : length (subarray frame 0 16) = 16%nat).
  { unfold subarray. cbn [skipn Nat.sub]. rewrite length_firstn. lia. }
  destruct (ecb_one_block key Hkey Decipher _ Hsub) as [Hu Hf].
  destruct (update (setAutoPadding (fresh Decipher aes_256_ecb key []) false)
                   (subarray frame 0 16)) as [IV decipherIV].
  cbn [fst snd] in Hu, Hf. rewrite Hf in Hr. unfold result_bind at 1 in Hr.
  assert (Hiv : length IV = 16%nat).
  { rewrite Hu. apply decrypt_block_length; assumption. }
  rewrite (create_ok key Hkey Decipher aes_256_cbc IV) in Hr by exact Hiv.
  unfold result_bind at 1 in Hr.
  assert (Hct : length (subarray_from frame 16) = ((n + 1) * 16)%nat).
  { unfold subarray_from. rewrite length_skipn. lia. }
  destruct (cbc_decipher key Hkey IV _ n Hct) as [Hhead Hfin].
  pose proof (cbc_decipher_length key Hkey n IV (subarray_from frame 16) Hiv
                ltac:(lia)) as Hheadlen.
  pose proof (cbc_decipher_chain_length key n IV (subarray_from frame 16) Hiv
                ltac:(lia)) as Hchain.
  assert (Hlast : length (fst (process aes_256_cbc Decipher key 1
                                 (snd (process aes_256_cbc Decipher key n IV
                                         (subarray_from frame 16)))
                                 (skipn (n * 16) (subarray_from frame 16))))
                  = 16%nat).
  { apply (cbc_decipher_length key Hkey 1); [exact Hchain|].
    rewrite length_skipn. lia. }
  destruct (update (fresh Decipher aes_256_cbc key IV) (subarray_from frame 16))
    as [head decipherData].
  cbn [fst snd] in Hhead, Hfin. rewrite Hfin in Hr.
  destruct (unpadblock_outcomes _ Hlast) as [Hbad | (tail & Hok & Htail)].
  - left. rewrite Hbad in Hr. exact Hr.
  - right. rewrite Hok in Hr. exists (head ++ tail).
    split; [exact Hr|]. rewrite length_app, Hhead, Hheadlen. lia.
Qed.

(** X3. Under a key of 32 octets [encrypt] draws exactly three random
    octets, and the frame identifies the call: two frames are equal exactly
    when the plaintexts are equal and the random octets are. *)
Theorem encrypt_frame_identifies (p p' key : Buffer) (g g' : Rng) :
  length key = 32%nat ->
  exists frame frame',
    encrypt p key g = Ok (frame, rng_drop 3 g)
    /\ encrypt p' key g' = Ok (frame', rng_drop 3 g')
    /\ (frame = frame' <-> p = p' /\ rng_take 3 g = rng_take 3 g').
Proof.
  intros Hkey.
  pose proof (encrypt_spec p key g Hkey) as He.
  pose proof (encrypt_spec p' key g' Hkey) as He'.
  cbv zeta in He, He'.
  set (IV := Standard.hmac_iv key (rng_take 3 g) p) in *.
  set (IV' := Standard.hmac_iv key (rng_take 3 g') p') in *.
  assert (Hiv : length IV = 16%nat) by (apply hmac_iv_length, rng_take_length).
  assert (Hiv' : length IV' = 16%nat) by (apply hmac_iv_length, rng_take_length).
  eexists. eexists. split; [exact He|]. split; [exact He'|]. split.
  - intros Heq.
    assert (Hp : p = p').
    { pose proof (decrypt_frame key IV p Hkey Hiv) as Hd.
      pose proof (decrypt_frame key IV' p' Hkey Hiv') as Hd'.
      rewrite Heq in Hd. rewrite Hd in Hd'. congruence. }
    split; [exact Hp|].
    apply app_eq_length in Heq as [Hivs _].
    2:{ rewrite !encrypt_block_length by assumption. reflexivity. }
    assert (HIV : IV = IV').
    { rewrite <- (decrypt_encrypt_block key IV Hkey Hiv), Hivs.
      apply decrypt_encrypt_block; assumption. }
    unfold IV, IV', Standard.hmac_iv in HIV.
    apply app_eq_length in HIV as [_ Hr]; [exact Hr|].
    rewrite !length_firstn, !HMAC_SHA1_length. reflexivity.
  - intros [Hp Hr]. subst p'. unfold IV, IV'. rewrite Hr. reflexivity.
Qed.

End DecryptOutcomes.

Lemma decrypt_outcomes_witness :
  length fips_key = 32%nat
  /\ length (repeat x00 48) = (16 + (1 + 1) * 16)%nat
  /\ (decrypt (C := AES256) (repeat x00 48) fips_key = Throw ERR_OSSL_BAD_DECRYPT
      \/ exists data,
           decrypt (C := AES256) (repeat x00 48) fips_key = Ok data
           /\ (1 * 16 <= length data < (1 + 1) * 16)%nat).
Proof.
  split; [reflexivity|]. split; [reflexivity|].
  apply (decrypt_outcomes (L := AES256_laws)); reflexivity.
Defined.

Lemma encrypt_frame_identifies_witness :
  length fips_key = 32%nat
  /\ exists frame frame',
       encrypt (C := AES256) (utf8 "Same data") fips_key sample_rng
       = Ok (frame, rng_drop 3 sample_rng)
       /\ encrypt (C := AES256) (utf8 "Same data") fips_key (rng_drop 3 sample_rng)
          = Ok (frame', rng_drop 3 (rng_drop 3 sample_rng))
       /\ (frame = frame'
           <-> utf8 "Same data" = utf8 "Same data"
               /\ rng_take 3 sample_rng = rng_take 3 (rng_drop 3 sample_rng)).
Proof.
  split; [reflexivity|].
  apply (encrypt_frame_identifies (L := AES256_laws)). reflexivity.
Defined.

(** ** Further properties of the checksum *)

Lemma crc32_unfold (buffer : Buffer) :
  crc32 buffer = Z.lxor (fold_left Reference.feed_byte buffer Reference.seed) 0xFFFFFFFF.
Proof.
  unfold crc32. rewrite complement_unsigned, crc32_loop_refines. reflexivity.
Qed.

Lemma lxor_32 (a b : Z) :
  0 <= a < 2 ^ 32 -> 0 <= b < 2 ^ 32 -> 0 <= Z.lxor a b < 2 ^ 32.
Proof.
  intros Ha Hb.
  assert (H : Z.lxor a b mod 2 ^ 32 = Z.lxor a b).
  { rewrite mod_pow2_lxor by lia. rewrite !Z.mod_small by assumption. reflexivity. }
  rewrite <- H. apply Z.mod_pos_bound. lia.
Qed.

Lemma shift_bit_range (c : Z) :
  0 <= c < 2 ^ 32 -> 0 <= Reference.shift_bit c < 2 ^ 32.
Proof.
  intros Hc. unfold Reference.shift_bit.
  assert (Hs : 0 <= Z.shiftr c 1 < 2 ^ 32).
  { rewrite Z.shiftr_div_pow2 by lia. change (2 ^ 1) with 2.
    split; [apply Z.div_pos; lia|].
    apply Z.div_lt_upper_bound; lia. }
  destruct (Z.testbit c 0); [|exact Hs].
  apply lxor_32; [exact Hs|]. unfold Reference.poly. lia.
Qed.

Lemma iter_shift_bit_range (k : nat) (c : Z) :
  0 <= c < 2 ^ 32 -> 0 <= Nat.iter k Reference.shift_bit c < 2 ^ 32.
Proof.
  intros Hc. induction k as [|k IH]; [exact Hc|].
  rewrite Nat.iter_succ. apply shift_bit_range, IH.
Qed.

(** A bit-step sends no other register value to zero. *)
Lemma shift_bit_zero (c : Z) :
  0 <= c < 2 ^ 32 -> Reference.shift_bit c = 0 -> c = 0.
Proof.
  intros Hc H. unfold Reference.shift_bit in H.
  assert (Hdiv : Z.shiftr c 1 = c / 2)
    by (rewrite Z.shiftr_div_pow2 by lia; reflexivity).
  destruct (Z.testbit c 0) eqn:Hbit.
  - apply Z.lxor_eq in H. rewrite Hdiv in H.
    unfold Reference.poly in H. exfalso.
    pose proof (Z.div_lt_upper_bound c 2 (2 ^ 31) ltac:(lia) ltac:(lia)). lia.
  - rewrite Hdiv in H.
    rewrite Z.bit0_odd in Hbit.
    pose proof (Z.div_mod c 2 ltac:(lia)) as Hdm.
    rewrite Zmod_odd, Hbit, H in Hdm. lia.
Qed.

Lemma iter_shift_bit_zero (k : nat) (c : Z) :
  0 <= c < 2 ^ 32 -> Nat.iter k Reference.shift_bit c = 0 -> c = 0.
Proof.
  intros Hc. induction k as [|k IH]; intros H; [exact H|].
  rewrite Nat.iter_succ in H.
  apply IH, shift_bit_zero; [apply iter_shift_bit_range, Hc | exact H].
Qed.

Lemma feed_byte_range (c : Z) (b : byte) :
  0 <= c < 2 ^ 32 -> 0 <= Reference.feed_byte c b < 2 ^ 32.
Proof.
  intros Hc. unfold Reference.feed_byte.
  apply iter_shift_bit_range, lxor_32; [exact Hc|].
  pose proof (byte_to_Z_range b). lia.
Qed.

(** Fed the same octet, different registers stay different; fed different
    octets, the same register splits. *)
Lemma feed_byte_separates (c c' : Z) (b b' : byte) :
  0 <= c < 2 ^ 32 -> 0 <= c' < 2 ^ 32 ->
  Reference.feed_byte c b = Reference.feed_byte c' b' ->
  Z.lxor c (byte_to_Z b) = Z.lxor c' (byte_to_Z b').
Proof.
  intros Hc Hc' H. unfold Reference.feed_byte in H.
  pose proof (byte_to_Z_range b) as Hb. pose proof (byte_to_Z_range b') as Hb'.
  apply Z.lxor_eq.
  apply (iter_shift_bit_zero 8).
  - apply lxor_32; apply lxor_32; lia.
  - rewrite iter_shift_bit_lxor, H. apply Z.lxor_nilpotent.
Qed.

Lemma loop_range (buffer : Buffer) (c : Z) :
  0 <= c < 2 ^ 32 -> 0 <= fold_left Reference.feed_byte buffer c < 2 ^ 32.
Proof.
  revert c. induction buffer as [|b rest IH]; intros c Hc; cbn [fold_left].
  - exact Hc.
  - apply IH, feed_byte_range, Hc.
Qed.

Lemma loop_injective (buffer : Buffer) (c c' : Z) :
  0 <= c < 2 ^ 32 -> 0 <= c' < 2 ^ 32 ->
  fold_left Reference.feed_byte buffer c = fold_left Reference.feed_byte buffer c' ->
  c = c'.
Proof.
  revert c c'. induction buffer as [|b rest IH]; intros c c' Hc Hc' H;
    cbn [fold_left] in H.
  - exact H.
  - apply IH in H; try (apply feed_byte_range; assumption).
    apply feed_byte_separates in H; try assumption.
    apply (f_equal (fun z => Z.lxor z (byte_to_Z b))) in H.
    rewrite !Z.lxor_assoc, Z.lxor_nilpotent, !Z.lxor_0_r in H. exact H.
Qed.

Lemma seed_range : 0 <= Reference.seed < 2 ^ 32.
Proof. unfold Reference.seed. lia. Qed.

(** X4. The checksum detects the change of any one octet: two buffers that
    differ in exactly one position never have the same [crc32]. *)
Theorem crc32_detects_single_octet (before after : Buffer) (b b' : byte) :
  b <> b' ->
  crc32 (before ++ b :: after) <> crc32 (before ++ b' :: after).
Proof.
  intros Hbb H. apply Hbb.
  rewrite !crc32_unfold in H.
  apply (f_equal (fun z => Z.lxor z 0xFFFFFFFF)) in H.
  rewrite !Z.lxor_assoc, Z.lxor_nilpotent, !Z.lxor_0_r in H.
  rewrite !fold_left_app in H. cbn [fold_left] in H.
  pose proof (loop_range before _ seed_range) as Hc.
  set (c := fold_left Reference.feed_byte before Reference.seed) in *.
  apply loop_injective in H; try (apply feed_byte_range; exact Hc).
  apply feed_byte_separates in H; try exact Hc.
  apply byte_to_Z_inj.
  apply (f_equal (Z.lxor c)) in H.
  rewrite <- !Z.lxor_assoc, Z.lxor_nilpotent, !Z.lxor_0_l in H. exact H.
Qed.

Lemma crc32_detects_single_octet_witness :
  "1"%byte <> "2"%byte
  /\ crc32 (utf8 "test" ++ "1"%byte :: []) <> crc32 (utf8 "test" ++ "2"%byte :: []).
Proof.
  split; [discriminate|].
  apply crc32_detects_single_octet. discriminate.
Defined.

(** X5. The checksum of a concatenation depends on the first part only
    through its checksum: parts with equal [crc32] can be exchanged in
    front of any continuation. *)
Theorem crc32_of_concatenation (a a' rest : Buffer) :
  crc32 a = crc32 a' -> crc32 (a ++ rest) = crc32 (a' ++ rest).
Proof.
  intros H. rewrite !crc32_unfold in *.
  apply (f_equal (fun z => Z.lxor z 0xFFFFFFFF)) in H.
  rewrite !Z.lxor_assoc, Z.lxor_nilpotent, !Z.lxor_0_r in H.
  rewrite !fold_left_app, H. reflexivity.
Qed.

Lemma crc32_of_concatenation_witness :
  crc32 (utf8 "plumless") = crc32 (utf8 "buckeroo")
  /\ crc32 (utf8 "plumless" ++ utf8 " and more")
     = crc32 (utf8 "buckeroo" ++ utf8 " and more").
Proof.
  split; [vm_compute; reflexivity|].
  apply crc32_of_concatenation. vm_compute. reflexivity.
Defined.

(** ** Base64 and the key of [rsaEncrypt] *)

Lemma list_triple_ind {A : Type} (P : list A -> Prop) :
  P [] -> (forall a, P [a]) -> (forall a b, P [a; b]) ->
  (forall a b c l, P l -> P (a :: b :: c :: l)) ->
  forall l, P l.
Proof.
  intros H0 H1 H2 H3 l.
  assert (H : P l /\ (forall a, P (a :: l)) /\ (forall a b, P (a :: b :: l))).
  { induction l as [|c l (IH0 & IH1 & IH2)]; repeat split; auto. }
  apply H.
Qed.

(** Each of the 64 characters stands for its own sextet and is not the
    padding character. *)
Lemma base64_char_checked :
  forallb (fun v => match Base64.value (Base64.char v) with
                    | Some w => (w =? v) && negb (byte_to_Z (Base64.char v) =? 61)
                    | None => false
                    end) (map Z.of_nat (seq 0 64)) = true.
Proof. vm_compute. reflexivity. Qed.

Lemma sextets_char (v : Z) (s : list byte) :
  0 <= v < 64 ->
  Base64.sextets (Base64.char v :: s) = v :: Base64.sextets s.
Proof.
  intros Hv. pose proof base64_char_checked as H.
  rewrite forallb_forall in H. specialize (H v).
  assert (Hin : In v (map Z.of_nat (seq 0 64))).
  { apply in_map_iff. exists (Z.to_nat v). split; [lia|]. apply in_seq. lia. }
  specialize (H Hin). cbn [Base64.sextets].
  destruct (Base64.value (Base64.char v)) as [w|]; [|discriminate].
  apply andb_true_iff in H as [Hw Hne].
  apply Z.eqb_eq in Hw. apply negb_true_iff in Hne.
  rewrite Hne, Hw. reflexivity.
Qed.

Lemma sextets_padding (s : list byte) : Base64.sextets (x3d :: s) = [].
Proof. reflexivity. Qed.

Lemma byte_of_Z_eq (z : Z) (b : byte) : z = byte_to_Z b -> byte_of_Z z = b.
Proof. intros ->. apply byte_of_to_Z. Qed.

(** Round trip: decoding what [toString("base64")] wrote gives the buffer
    back. *)
Lemma base64_decode_encode (b : Buffer) : Base64.decode (Base64.encode b) = b.
Proof.
  unfold Base64.decode.
  induction b as [|x|x y|x y z rest IH] using list_triple_ind.
  - reflexivity.
  - cbn [Base64.encode]. pose proof (byte_to_Z_range x) as Hx.
    rewrite !sextets_char, sextets_padding
      by (try apply Z.div_pos; try apply Z.div_lt_upper_bound;
          Z.div_mod_to_equations; lia).
    cbn [Base64.pack]. f_equal.
    apply byte_of_Z_eq. Z.div_mod_to_equations. lia.
  - cbn [Base64.encode].
    pose proof (byte_to_Z_range x) as Hx. pose proof (byte_to_Z_range y) as Hy.
    rewrite !sextets_char, sextets_padding by (Z.div_mod_to_equations; lia).
    cbn [Base64.pack].
    f_equal; [|f_equal]; apply byte_of_Z_eq; Z.div_mod_to_equations; lia.
  - cbn [Base64.encode].
    pose proof (byte_to_Z_range x) as Hx. pose proof (byte_to_Z_range y) as Hy.
    pose proof (byte_to_Z_range z) as Hz.
    assert (Hc : Base64.char (byte_to_Z z) = Base64.char (byte_to_Z z mod 64)).
    { unfold Base64.char. rewrite Z.mod_mod by lia. reflexivity. }
    rewrite Hc.
    rewrite !sextets_char by (Z.div_mod_to_equations; lia).
    cbn [Base64.pack]. rewrite IH.
    f_equal; [|f_equal; [|f_equal]]; apply byte_of_Z_eq;
      Z.div_mod_to_equations; lia.
Qed.

Lemma utf8_toString_base64 (b : Buffer) :
  Base64.decode (utf8 (toString_base64 b)) = b.
Proof.
  unfold toString_base64. rewrite utf8_of_bytes. apply base64_decode_encode.
Qed.

(** The detour of [rsaEncrypt] through base64 and a JWK loses nothing:
    the key it encrypts under has, as modulus and exponent, the big-endian
    integers of the octets decoded from the two hex texts, and the call is
    the PKCS#1 v1.5 encryption of the UTF-8 password under that key,
    written in base64. *)
Lemma rsaEncrypt_via_key (password publicKeyMod publicKeyExp : string)
        (g : Rng) :
  let key := {| rsa_n := OS2IP (Buffer_from_hex publicKeyMod);
                rsa_e := OS2IP (Buffer_from_hex publicKeyExp) |} in
  createPublicKey_jwk (toString_base64 (Buffer_from_hex publicKeyMod))
                      (toString_base64 (Buffer_from_hex publicKeyExp))
  = Ok key
  /\ rsaEncrypt password publicKeyMod publicKeyExp g
     = match publicEncrypt_key key RSA_PKCS1_PADDING (utf8 password) g with
       | Ok (ciphertext, g') => Ok (toString_base64 ciphertext, g')
       | Throw e => Throw e
       end.
Proof.
  intros key.
  assert (Hkey : createPublicKey_jwk (toString_base64 (Buffer_from_hex publicKeyMod))
                   (toString_base64 (Buffer_from_hex publicKeyExp)) = Ok key).
  { unfold createPublicKey_jwk. rewrite !utf8_toString_base64. reflexivity. }
  split; [exact Hkey|].
  unfold rsaEncrypt. rewrite Hkey.
  unfold bind at 1, lift. unfold bind, ret.
  destruct (publicEncrypt_key key RSA_PKCS1_PADDING (utf8 password) g)
    as [[ciphertext g']|e]; reflexivity.
Qed.

(** X6. The detour of [rsaEncrypt] through base64 and a JWK loses nothing:
    the key it encrypts under has, as modulus and exponent, the big-endian
    integers of the octets decoded from the two hex texts, and the call is
    the PKCS#1 v1.5 encryption of the UTF-8 password under that key,
    written in base64. *)
Theorem rsaEncrypt_key_from_hex (password publicKeyMod publicKeyExp : string)
        (g : Rng) :
  let key := {| rsa_n := OS2IP (Buffer_from_hex publicKeyMod);
                rsa_e := OS2IP (Buffer_from_hex publicKeyExp) |} in
  createPublicKey_jwk (toString_base64 (Buffer_from_hex publicKeyMod))
                      (toString_base64 (Buffer_from_hex publicKeyExp))
  = Ok key
  /\ rsaEncrypt password publicKeyMod publicKeyExp g
     = match publicEncrypt_key key RSA_PKCS1_PADDING (utf8 password) g with
       | Ok (ciphertext, g') => Ok (toString_base64 ciphertext, g')
       | Throw e => Throw e
       end.
Proof.
  exact (rsaEncrypt_via_key password publicKeyMod publicKeyExp g).
Qed.

(** ** What [rsaEncrypt] returns and when it throws *)

Lemma replace_zeros_none (ps : Buffer) (g : Rng) :
  forallb (fun b => negb (is_zero b)) ps = true ->
  replace_zeros ps g = Ok (ps, g).
Proof.
  revert g. induction ps as [|b ps IH]; intros g H; cbn [replace_zeros].
  - reflexivity.
  - cbn [forallb] in H. apply andb_true_iff in H as [Hb Hps].
    apply negb_true_iff in Hb. rewrite Hb.
    unfold bind at 1, ret at 1. unfold bind. rewrite (IH g Hps). reflexivity.
Qed.

Lemma pkcs1_block_shape (ps from : Buffer) (tlen : nat) :
  (length ps + length from + 3 = tlen)%nat ->
  length ([x00; x02] ++ ps ++ [x00] ++ from) = tlen
  /\ OS2IP ([x00; x02] ++ ps ++ [x00] ++ from) < 256 ^ (Z.of_nat tlen - 1).
Proof.
  intros H. split.
  - cbn [app length]. rewrite length_app. cbn [length]. lia.
  - change ([x00; x02] ++ ps ++ [x00] ++ from)
      with (x00 :: (x02 :: ps ++ [x00] ++ from)).
    rewrite OS2IP_leading_zero.
    pose proof (OS2IP_bound (x02 :: ps ++ [x00] ++ from)) as Hb.
    assert (Hl : Z.of_nat (length (x02 :: ps ++ [x00] ++ from)) = Z.of_nat tlen - 1).
    { cbn [length]. rewrite length_app. cbn [app length]. lia. }
    rewrite Hl in Hb. apply Hb.
Qed.

Lemma PKCS1_type_2_ok (tlen : nat) (from : Buffer) (g : Rng) :
  (length from + 11 <= tlen)%nat ->
  forallb (fun b => negb (is_zero b)) (rng_take (tlen - 3 - length from) g) = true ->
  RSA_padding_add_PKCS1_type_2 tlen from g
  = Ok ([x00; x02] ++ rng_take (tlen - 3 - length from) g ++ [x00] ++ from,
        rng_drop (tlen - 3 - length from) g).
Proof.
  intros Hlen Hps. unfold RSA_padding_add_PKCS1_type_2.
  destruct (Nat.ltb_spec tlen (length from + 11)) as [H|_]; [lia|].
  rewrite (bind_ok _ _ g (rng_drop (tlen - 3 - length from) g)
             (rng_take (tlen - 3 - length from) g) eq_refl).
  rewrite (bind_ok _ _ _ _ _ (replace_zeros_none _ _ Hps)).
  reflexivity.
Qed.

Lemma RSA_public_encrypt_pkcs1 (key : RsaKey) (from : Buffer) (g : Rng) :
  sound_key key ->
  (length from + 11 <= RSA_size key)%nat ->
  let ps := rng_take (RSA_size key - 3 - length from) g in
  forallb (fun b => negb (is_zero b)) ps = true ->
  RSA_public_encrypt key RSA_PKCS1_PADDING from g
  = Ok (I2OSP (BN_mod_exp (OS2IP ([x00; x02] ++ ps ++ [x00] ++ from))
                          (rsa_e key) (rsa_n key)) (RSA_size key),
        rng_drop (RSA_size key - 3 - length from) g).
Proof.
  intros (Hbits & He & Hbig & Hodd & Hn) Hlen ps Hps.
  unfold RSA_public_encrypt.
  destruct (Z.eqb_spec (rsa_n key) 0) as [H0|_];
    [rewrite H0 in Hodd; discriminate Hodd|].
  destruct (Z.ltb_spec 16384 (BN_num_bits (rsa_n key))) as [H|_]; [lia|].
  destruct (Z.leb_spec (rsa_n key) (rsa_e key)) as [H|_]; [lia|].
  rewrite Hbig. fold (RSA_size key).
  rewrite (bind_ok _ _ _ _ _ (PKCS1_type_2_ok (RSA_size key) from g Hlen Hps)).
  fold ps.
  destruct (pkcs1_block_shape ps from (RSA_size key)) as [_ Hint].
  { unfold ps. rewrite rng_take_length. lia. }
  destruct (Z.leb_spec (rsa_n key) (OS2IP ([x00; x02] ++ ps ++ [x00] ++ from)))
    as [H|_]; [lia|].
  rewrite Hodd. reflexivity.
Qed.

Lemma RSA_public_encrypt_pkcs1_too_large (key : RsaKey) (from : Buffer) (g : Rng) :
  sound_key key ->
  (RSA_size key < length from + 11)%nat ->
  RSA_public_encrypt key RSA_PKCS1_PADDING from g
  = Throw ERR_OSSL_RSA_DATA_TOO_LARGE_FOR_KEY_SIZE.
Proof.
  intros (Hbits & He & Hbig & Hodd & Hn) Hlen.
  unfold RSA_public_encrypt.
  destruct (Z.eqb_spec (rsa_n key) 0) as [H0|_];
    [rewrite H0 in Hodd; discriminate Hodd|].
  destruct (Z.ltb_spec 16384 (BN_num_bits (rsa_n key))) as [H|_]; [lia|].
  destruct (Z.leb_spec (rsa_n key) (rsa_e key)) as [H|_]; [lia|].
  rewrite Hbig. fold (RSA_size key).
  apply bind_throw. unfold RSA_padding_add_PKCS1_type_2.
  destruct (Nat.ltb_spec (RSA_size key) (length from + 11)) as [_|H]; [|lia].
  reflexivity.
Qed.

(** X7. With a key the library works with (see [sound_key]), a password of
    at most [k - 11] octets, [k] the size of the modulus, and no zero among
    the padding octets drawn, [rsaEncrypt] returns the base64 text of
    exactly [k] octets: the integer of the block [00 02 PS 00 password]
    raised to the exponent modulo the modulus; decoding the text gives
    those [k] octets back. *)
Theorem rsaEncrypt_returns (password publicKeyMod publicKeyExp : string) (g : Rng) :
  let key := {| rsa_n := OS2IP (Buffer_from_hex publicKeyMod);
                rsa_e := OS2IP (Buffer_from_hex publicKeyExp) |} in
  let k := RSA_size key in
  let ps := rng_take (k - 3 - length (utf8 password)) g in
  sound_key key ->
  (length (utf8 password) + 11 <= k)%nat ->
  forallb (fun b => negb (is_zero b)) ps = true ->
  exists ciphertext,
    rsaEncrypt password publicKeyMod publicKeyExp g
    = Ok (toString_base64 ciphertext, rng_drop (k - 3 - length (utf8 password)) g)
    /\ ciphertext
       = I2OSP (BN_mod_exp (OS2IP ([x00; x02] ++ ps ++ [x00] ++ utf8 password))
                           (rsa_e key) (rsa_n key)) k
    /\ length ciphertext = k
    /\ Base64.decode (utf8 (toString_base64 ciphertext)) = ciphertext.
Proof.
  intros key k ps Hkey Hlen Hps.
  destruct (rsaEncrypt_via_key password publicKeyMod publicKeyExp g)
    as [_ Hrun].
  fold key in Hrun.
  unfold publicEncrypt_key in Hrun.
  rewrite (RSA_public_encrypt_pkcs1 key (utf8 password) g Hkey Hlen Hps) in Hrun.
  eexists. split; [exact Hrun|].
  split; [reflexivity|]. split; [apply I2OSP_length | apply utf8_toString_base64].
Qed.

(** X8. With such a key, a password longer than [k - 11] octets is
    refused with the data-too-large-for-key-size error: nothing is
    truncated. *)
Theorem rsaEncrypt_password_too_long (password publicKeyMod publicKeyExp : string)
        (g : Rng) :
  let key := {| rsa_n := OS2IP (Buffer_from_hex publicKeyMod);
                rsa_e := OS2IP (Buffer_from_hex publicKeyExp) |} in
  sound_key key ->
  (RSA_size key < length (utf8 password) + 11)%nat ->
  rsaEncrypt password publicKeyMod publicKeyExp g
  = Throw ERR_OSSL_RSA_DATA_TOO_LARGE_FOR_KEY_SIZE.
Proof.
  intros key Hkey Hlen.
  destruct (rsaEncrypt_via_key password publicKeyMod publicKeyExp g)
    as [_ Hrun].
  fold key in Hrun. unfold publicEncrypt_key in Hrun.
  rewrite (RSA_public_encrypt_pkcs1_too_large key (utf8 password) g Hkey Hlen)
    in Hrun.
  exact Hrun.
Qed.

Lemma test_key_sound : sound_key test_key.
Proof. unfold sound_key. repeat split; vm_compute; try reflexivity; discriminate. Qed.

Lemma rsaEncrypt_returns_witness :
  sound_key test_key
  /\ (length (utf8 "testpassword123") + 11 <= RSA_size test_key)%nat
  /\ forallb (fun b => negb (is_zero b))
             (rng_take (RSA_size test_key - 3 - length (utf8 "testpassword123"))
                       sample_rng) = true
  /\ exists ciphertext,
       rsaEncrypt "testpassword123" testPublicKeyMod testPublicKeyExp sample_rng
       = Ok (toString_base64 ciphertext,
             rng_drop (RSA_size test_key - 3 - length (utf8 "testpassword123"))
                      sample_rng)
       /\ ciphertext
          = I2OSP (BN_mod_exp
                     (OS2IP ([x00; x02]
                               ++ rng_take (RSA_size test_key - 3
                                            - length (utf8 "testpassword123"))
                                           sample_rng
                               ++ [x00] ++ utf8 "testpassword123"))
                     (rsa_e test_key) (rsa_n test_key)) (RSA_size test_key)
       /\ length ciphertext = RSA_size test_key
       /\ Base64.decode (utf8 (toString_base64 ciphertext)) = ciphertext.
Proof.
  split; [exact test_key_sound|].
  split; [vm_compute; lia|].
  split; [vm_compute; reflexivity|].
  apply (rsaEncrypt_returns "testpassword123" testPublicKeyMod testPublicKeyExp
           sample_rng test_key_sound).
  - vm_compute. lia.
  - vm_compute. reflexivity.
Defined.

Lemma rsaEncrypt_password_too_long_witness :
  sound_key test_key
  /\ (RSA_size test_key < length (utf8 long_password) + 11)%nat
  /\ rsaEncrypt long_password testPublicKeyMod testPublicKeyExp sample_rng
     = Throw ERR_OSSL_RSA_DATA_TOO_LARGE_FOR_KEY_SIZE.
Proof.
  split; [exact test_key_sound|].
  split; [vm_compute; lia|].
  apply (rsaEncrypt_password_too_long long_password testPublicKeyMod
           testPublicKeyExp sample_rng test_key_sound).
  vm_compute. lia.
Defined.

(** X9. [decrypt] never recomputes the HMAC the IV was derived from: under
    a key of 32 octets it accepts the frame of any sender, whatever 16
    octets served as IV, and returns the plaintext. *)
Theorem decrypt_accepts_any_iv {C : BlockCipher} (L : BlockCipherLaws C)
        (key IV data : Buffer) :
  length key = 32%nat ->
  length IV = 16%nat ->
  decrypt (Standard.AES_256_ECB_encrypt key IV
             ++ Standard.AES_256_CBC_encrypt key IV data) key
  = Ok data.
Proof.
  intros Hkey Hiv.
  unfold Standard.AES_256_ECB_encrypt, Standard.AES_256_CBC_encrypt.
  rewrite pkcs7_pad_length, Nat.div_mul by lia.
  rewrite <- process_is_cbc_chain.
  apply decrypt_frame; assumption.
Qed.

Lemma decrypt_accepts_any_iv_witness :
  length fips_key = 32%nat
  /\ length (repeat x00 16) = 16%nat
  /\ decrypt (C := AES256)
       (Standard.AES_256_ECB_encrypt (C := AES256) fips_key (repeat x00 16)
          ++ Standard.AES_256_CBC_encrypt (C := AES256) fips_key (repeat x00 16)
               (utf8 "Hello, Steam!")) fips_key
     = Ok (utf8 "Hello, Steam!").
Proof.
  split; [reflexivity|]. split; [reflexivity|].
  apply (decrypt_accepts_any_iv AES256_laws); reflexivity.
Defined.
